(** * Visa Sponsorship Detector: the content script, verified

    A shallow embedding of [content.js] (both revisions kept in the
    repository: the pattern revision with [RESTRICTION_PATTERNS] and
    [EXCLUSION_PATTERNS], and the keyword revision with
    [RESTRICTION_KEYWORDS]) together with the properties the
    specification states about text extraction, phrase matching, the
    re-scan policy and the debounced scheduler. *)

From Stdlib Require Import NArith Ascii String.
From stdpp Require Import base tactics option list strings gmap.

Local Open Scope N_scope.

(** ** JavaScript strings

    A JavaScript string is a finite sequence of UTF-16 code units. *)

Abbreviation code_unit := N (only parsing).
Abbreviation jsstring := (list N) (only parsing).

(** Source literals are Basic Latin; [js] spells them as code units. *)
Definition js (s : string) : jsstring :=
  map N_of_ascii (list_ascii_of_string s).

(** [!text], [inner && ...]: a string is falsy exactly when it is empty. *)
Definition truthy (s : jsstring) : bool :=
  match s with [] => false | _ :: _ => true end.

(** [a === b] on strings: equality of the code unit sequences. *)
Definition str_eqb (a b : jsstring) : bool := bool_decide (a = b).
Arguments str_eqb : simpl never.

Definition between (lo hi u : N) : bool := (lo <=? u) && (u <=? hi).

(** [\s]: WhiteSpace and LineTerminator of ECMA-262. *)
Definition is_space (u : code_unit) : bool :=
  between 9 13 u || (u =? 32) || (u =? 160) || (u =? 5760)
  || between 8192 8202 u || (u =? 8232) || (u =? 8233) || (u =? 8239)
  || (u =? 8287) || (u =? 12288) || (u =? 65279).

(** [\w] without the [u] flag: the 63 basic word characters. *)
Definition is_word_char (u : code_unit) : bool :=
  between 97 122 u || between 65 90 u || between 48 57 u || (u =? 95).

(** The Basic Latin part of the case mappings. *)
Definition lower_unit (u : code_unit) : code_unit :=
  if between 65 90 u then u + 32 else u.

Definition upper_unit (u : code_unit) : code_unit :=
  if between 97 122 u then u - 32 else u.

(** [Canonicalize] of ECMA-262 for the [i] flag without [u]: the code
    unit is upper-cased, except that a code unit of 128 or more is never
    mapped below 128.  On Basic Latin this is [upper_unit]; a code unit
    of 128 or more always has a canonical form of 128 or more, so it can
    never agree with the canonical form of a Basic Latin pattern
    character, and the embedding keeps it as it is. *)
Definition Canonicalize (u : code_unit) : code_unit := upper_unit u.

(** ** Regular expressions

    The fragment of the pattern language that the two pattern tables
    use.  All of them carry the single flag [i]: no [g] and no [y], so
    [test] and [match] start at index 0 and leave [lastIndex] alone. *)

Inductive charset :=
  | CChar (c : code_unit)            (* a pattern character *)
  | CSpace                           (* \s *)
  | CRange (lo hi : code_unit)       (* lo-hi inside [...] *)
  | CUnion (a b : charset).          (* [ab] *)

Inductive regex :=
  | Eps
  | Chr (c : charset)
  | WordB                                           (* \b *)
  | Seq (a b : regex)
  | Alt (a b : regex)                               (* a|b *)
  | Opt (a : regex)                                 (* (?:a)? *)
  | Quant (c : charset) (min : nat) (max : option nat).  (* c{min,max} *)

Fixpoint range_from (lo : N) (n : nat) : list N :=
  match n with
  | O => []
  | S n' => lo :: range_from (N.succ lo) n'
  end.

Definition range (lo hi : N) : list N :=
  range_from lo (N.to_nat (N.succ hi - lo)).

(** CharacterSetMatcher with IgnoreCase: [u] is accepted when some
    member of the set has the same canonical form. *)
Fixpoint cs_match (c : charset) (u : code_unit) : bool :=
  match c with
  | CChar a => Canonicalize a =? Canonicalize u
  | CSpace => is_space u
  | CRange lo hi =>
      existsb (fun a => Canonicalize a =? Canonicalize u) (range lo hi)
  | CUnion a b => cs_match a u || cs_match b u
  end.

(** The matcher state is a zipper over the subject: the code units
    before the current index, nearest first, and those from it on. *)
Definition cursor := (list code_unit * list code_unit)%type.
Definition continuation := list code_unit -> list code_unit -> option cursor.

Definition head_is_word (l : list code_unit) : bool :=
  match l with
  | u :: _ => is_word_char u
  | [] => false
  end.

(** [\b]: exactly one side of the index is a word character. *)
Definition is_boundary (before after : list code_unit) : bool :=
  xorb (head_is_word before) (head_is_word after).

Definition or_else (a b : option cursor) : option cursor :=
  match a with
  | Some e => Some e
  | None => b
  end.

(** RepeatMatcher (greedy) for an atom that consumes one code unit. *)
Fixpoint repeat_set (c : charset) (min : nat) (max : option nat)
    (before after : list code_unit) (k : continuation) {struct after}
    : option cursor :=
  match max with
  | Some O => k before after
  | _ =>
      let attempt :=
        match after with
        | u :: after' =>
            if cs_match c u
            then repeat_set c (Nat.pred min) (Nat.pred <$> max)
                            (u :: before) after' k
            else None
        | [] => None
        end in
      match min with
      | S _ => attempt
      | O => or_else attempt (k before after)
      end
  end.

(** The backtracking matcher of ECMA-262, in continuation passing
    style: alternatives are tried left to right, quantifiers are greedy,
    and an iteration of [?] that consumes nothing is refused. *)
Fixpoint matcher (r : regex) (before after : list code_unit)
    (k : continuation) {struct r} : option cursor :=
  match r with
  | Eps => k before after
  | Chr c =>
      match after with
      | u :: after' => if cs_match c u then k (u :: before) after' else None
      | [] => None
      end
  | WordB => if is_boundary before after then k before after else None
  | Seq a b => matcher a before after (fun b' a' => matcher b b' a' k)
  | Alt a b => or_else (matcher a before after k) (matcher b before after k)
  | Opt a =>
      or_else
        (matcher a before after
           (fun b' a' =>
              if (length a' =? length after)%nat then None else k b' a'))
        (k before after)
  | Quant c min max => repeat_set c min max before after k
  end.

Definition accept : continuation := fun b a => Some (b, a).

(** The result of a successful [exec]: [m.index] and [m[0]]. *)
Record MatchResult := { index : nat; matched : jsstring }.

(** RegExpBuiltinExec without [g] and [y]: the matcher is tried at
    index 0, 1, ... up to and including the length of the subject. *)
Fixpoint exec_from (r : regex) (i : nat) (before after : list code_unit)
    : option MatchResult :=
  match matcher r before after accept with
  | Some (_, rest) =>
      Some {| index := i;
              matched := take (length after - length rest)%nat after |}
  | None =>
      match after with
      | [] => None
      | u :: after' => exec_from r (S i) (u :: before) after'
      end
  end.

(** [text.match(pattern)] for a pattern without the [g] flag. *)
Definition exec (r : regex) (text : jsstring) : option MatchResult :=
  exec_from r 0 [] text.

(** [pattern.test(text)]. *)
Definition test (r : regex) (text : jsstring) : bool :=
  match exec r text with
  | Some _ => true
  | None => false
  end.

(** *** Writing patterns *)

Definition chr (a : ascii) : regex := Chr (CChar (N_of_ascii a)).

Fixpoint lit_units (l : list ascii) : regex :=
  match l with
  | [] => Eps
  | [a] => chr a
  | a :: l' => Seq (chr a) (lit_units l')
  end.

(** A literal run of pattern characters. *)
Definition lit (s : string) : regex := lit_units (list_ascii_of_string s).

(** Concatenation of the terms of one alternative. *)
Fixpoint cat (rs : list regex) : regex :=
  match rs with
  | [] => Eps
  | [r] => r
  | r :: rs' => Seq r (cat rs')
  end.

(** [(?:r|r1|...|rn)] *)
Fixpoint alt (r : regex) (rs : list regex) : regex :=
  match rs with
  | [] => r
  | r' :: rs' => Alt r (alt r' rs')
  end.

(** [\s+] *)
Definition ws : regex := Quant CSpace 1 None.

(** [[a-z\s]{0,n}] *)
Definition filler (n : nat) : regex :=
  Quant (CUnion (CRange 97 122) CSpace) 0 (Some n).

(** [(?:us|u\.?s\.?)] *)
Definition us : regex :=
  alt (lit "us") [cat [lit "u"; Opt (lit "."); lit "s"; Opt (lit ".")]].

(** [(?:visa\s+)?] *)
Definition visa_opt : regex := Opt (cat [lit "visa"; ws]).

(** ** The phrase rule set (pattern revision) *)

(** All restriction phrases, in the order of the source table. *)
Definition RESTRICTION_PATTERNS : list regex := [
  (* /\bno\s+(?:visa\s+)?sponsorship\b/i *)
  cat [WordB; lit "no"; ws; visa_opt; lit "sponsorship"; WordB];
  (* /\b(?:visa\s+)?sponsorship\s+not\s+(?:available|provided|offered|supported)\b/i *)
  cat [WordB; visa_opt; lit "sponsorship"; ws; lit "not"; ws;
       alt (lit "available") [lit "provided"; lit "offered"; lit "supported"];
       WordB];
  (* /\b(?:we\s+)?(?:do|does|will)\s+not\s+sponsor\b/i *)
  cat [WordB; Opt (cat [lit "we"; ws]); alt (lit "do") [lit "does"; lit "will"];
       ws; lit "not"; ws; lit "sponsor"; WordB];
  (* /\b(?:cannot|unable\s+to)\s+sponsor\b/i *)
  cat [WordB; alt (lit "cannot") [cat [lit "unable"; ws; lit "to"]];
       ws; lit "sponsor"; WordB];
  (* /\b(?:do|does)\s+not\s+provide\s+sponsorship\b/i *)
  cat [WordB; alt (lit "do") [lit "does"]; ws; lit "not"; ws; lit "provide";
       ws; lit "sponsorship"; WordB];
  (* /\bnot\s+eligible\s+for\s+sponsorship\b/i *)
  cat [WordB; lit "not"; ws; lit "eligible"; ws; lit "for"; ws;
       lit "sponsorship"; WordB];
  (* /\bno\s+(?:h-?1b|h1b|visa)\s+sponsor/i *)
  cat [WordB; lit "no"; ws;
       alt (cat [lit "h"; Opt (lit "-"); lit "1b"]) [lit "h1b"; lit "visa"];
       ws; lit "sponsor"];
  (* /\b(?:we\s+)?(?:do|does)\s+not\s+sponsor\s+visas\b/i *)
  cat [WordB; Opt (cat [lit "we"; ws]); alt (lit "do") [lit "does"];
       ws; lit "not"; ws; lit "sponsor"; ws; lit "visas"; WordB];
  (* /\b(?:us|u\.?s\.?)\s+citizenship\s+required\b/i *)
  cat [WordB; us; ws; lit "citizenship"; ws; lit "required"; WordB];
  (* /\bmust\s+be\s+(?:a\s+)?(?:us|u\.?s\.?)\s+citizen\b/i *)
  cat [WordB; lit "must"; ws; lit "be"; ws; Opt (cat [lit "a"; ws]); us; ws;
       lit "citizen"; WordB];
  (* /\b(?:us|u\.?s\.?)\s+citizen(?:s)?\s+only\b/i *)
  cat [WordB; us; ws; lit "citizen"; Opt (lit "s"); ws; lit "only"; WordB];
  (* /\bonly\s+(?:us|u\.?s\.?)\s+citizens?\s+(?:are\s+)?eligible\b/i *)
  cat [WordB; lit "only"; ws; us; ws; lit "citizen"; Opt (lit "s"); ws;
       Opt (cat [lit "are"; ws]); lit "eligible"; WordB];
  (* /\bgreen\s+card\s+holders?\s+only\b/i *)
  cat [WordB; lit "green"; ws; lit "card"; ws; lit "holder"; Opt (lit "s"); ws;
       lit "only"; WordB];
  (* /\b(?:citizen\s+or\s+)?permanent\s+resident\s+only\b/i *)
  cat [WordB; Opt (cat [lit "citizen"; ws; lit "or"; ws]); lit "permanent"; ws;
       lit "resident"; ws; lit "only"; WordB];
  (* /\b(?:us|u\.?s\.?)\s+permanent\s+resident\s+only\b/i *)
  cat [WordB; us; ws; lit "permanent"; ws; lit "resident"; ws; lit "only";
       WordB];
  (* /\bauthorized\s+to\s+work\s+without\s+sponsorship\b/i *)
  cat [WordB; lit "authorized"; ws; lit "to"; ws; lit "work"; ws;
       lit "without"; ws; lit "sponsorship"; WordB];
  (* /\bproof\s+of\s+(?:country\s+of\s+)?citizenship\b/i *)
  cat [WordB; lit "proof"; ws; lit "of"; ws;
       Opt (cat [lit "country"; ws; lit "of"; ws]); lit "citizenship"; WordB];
  (* /\bcitizenship\s+verification\b/i *)
  cat [WordB; lit "citizenship"; ws; lit "verification"; WordB];
  (* /\bapplicants?\s+must\s+be\s+(?:a\s+)?(?:us|u\.?s\.?)\s+citizen/i *)
  cat [WordB; lit "applicant"; Opt (lit "s"); ws; lit "must"; ws; lit "be"; ws;
       Opt (cat [lit "a"; ws]); us; ws; lit "citizen"];
  (* /\binternational\s+traffic\s+in\s+arms\s+regulations\b/i *)
  cat [WordB; lit "international"; ws; lit "traffic"; ws; lit "in"; ws;
       lit "arms"; ws; lit "regulations"; WordB];
  (* /\bexport\s+administration\s+regulations\b/i *)
  cat [WordB; lit "export"; ws; lit "administration"; ws; lit "regulations";
       WordB]
].

(** Phrases that mean "they sponsor". *)
Definition EXCLUSION_PATTERNS : list regex := [
  (* /\bno\s+[a-z\s]{0,25}(?:citizenship|citizen)\s+required\b/i *)
  cat [WordB; lit "no"; ws; filler 25; alt (lit "citizenship") [lit "citizen"];
       ws; lit "required"; WordB];
  (* /\b(?:citizenship|citizen)\s+not\s+required\b/i *)
  cat [WordB; alt (lit "citizenship") [lit "citizen"]; ws; lit "not"; ws;
       lit "required"; WordB];
  (* /\b(?:no|not)\s+[a-z\s]{0,30}(?:visa\s+)?sponsorship\s+(?:required|needed)\b/i *)
  cat [WordB; alt (lit "no") [lit "not"]; ws; filler 30; visa_opt;
       lit "sponsorship"; ws; alt (lit "required") [lit "needed"]; WordB];
  (* /\b(?:visa\s+)?sponsorship\s+not\s+(?:required|needed)\b/i *)
  cat [WordB; visa_opt; lit "sponsorship"; ws; lit "not"; ws;
       alt (lit "required") [lit "needed"]; WordB];
  (* /\b(?:do|does)\s+not\s+require\s+(?:visa\s+)?sponsorship\b/i *)
  cat [WordB; alt (lit "do") [lit "does"]; ws; lit "not"; ws; lit "require";
       ws; visa_opt; lit "sponsorship"; WordB];
  (* /\bwith\s+or\s+without\s+(?:visa\s+)?sponsorship\b/i *)
  cat [WordB; lit "with"; ws; lit "or"; ws; lit "without"; ws; visa_opt;
       lit "sponsorship"; WordB];
  (* /\b(?:visa\s+)?sponsorship\s+(?:is\s+)?available\b/i *)
  cat [WordB; visa_opt; lit "sponsorship"; ws; Opt (cat [lit "is"; ws]);
       lit "available"; WordB]
].

(** ** Host string operations *)

(** [String.prototype.toLowerCase] is the host's full Unicode lower-case
    mapping; the embedding keeps it abstract. *)
Class LowerCase := toLowerCase : jsstring -> jsstring.

(** The Basic Latin lower-casing, the mapping every host agrees with on
    strings made of Basic Latin and white space. *)
Definition BasicLatin : LowerCase := map lower_unit.

(** What the matched phrases are made of: Basic Latin and white space. *)
Definition plain_unit (u : code_unit) : bool := (u <? 128) || is_space u.

(** The two facts about the host mapping that the phrase properties
    rely on: on plain text it is the Basic Latin mapping, and a plain
    run keeps its place when the text around it is lower-cased. *)
Class LowerCaseLaws (L : LowerCase) : Prop := {
  lower_plain : forall s : jsstring,
    forallb plain_unit s = true -> toLowerCase s = map lower_unit s;
  lower_infix : forall pre s post : jsstring,
    forallb plain_unit s = true ->
    exists pre' post',
      toLowerCase (pre ++ s ++ post) = pre' ++ map lower_unit s ++ post'
}.

(** [String.prototype.trim]: white space and line terminators are
    stripped from both ends. *)
Fixpoint trimStart (s : jsstring) : jsstring :=
  match s with
  | u :: s' => if is_space u then trimStart s' else s
  | [] => []
  end.

Definition trim (s : jsstring) : jsstring :=
  reverse (trimStart (reverse (trimStart s))).

Definition is_prefix_of (k s : jsstring) : bool :=
  bool_decide (take (length k) s = k).

(** [s.indexOf(k)]: the first index at which [k] occurs. *)
Fixpoint indexOf_from (i : nat) (s k : jsstring) : option nat :=
  if is_prefix_of k s then Some i
  else match s with
       | [] => None
       | _ :: s' => indexOf_from (S i) s' k
       end.

Definition indexOf (s k : jsstring) : option nat := indexOf_from 0 s k.

(** [s.includes(k)] *)
Definition includes (s k : jsstring) : bool :=
  match indexOf s k with
  | Some _ => true
  | None => false
  end.

(** [chunks.join(' ')] *)
Fixpoint join (sep : jsstring) (chunks : list jsstring) : jsstring :=
  match chunks with
  | [] => []
  | [c] => c
  | c :: rest => c ++ sep ++ join sep rest
  end.

(** [new Set(matches)] followed by spreading: insertion order, an
    element already present is not added again. *)
Definition Set_add (s : list jsstring) (x : jsstring) : list jsstring :=
  if bool_decide (x ∈ s) then s else s ++ [x].

Definition Set_of (matches : list jsstring) : list jsstring :=
  foldl Set_add [] matches.

(** ** The restriction matcher *)

(** The matcher is written so that it also reports which patterns it
    handed the text to, in the order of the calls. *)
Definition Consulting (A : Type) : Type := (A * list regex)%type.

Definition ret {A} (x : A) : Consulting A := (x, []).

Definition bind {A B} (m : Consulting A) (f : A -> Consulting B)
    : Consulting B :=
  let '(a, l1) := m in
  let '(b, l2) := f a in
  (b, l1 ++ l2).

Notation "x <~ m ; f" := (bind m (fun x => f))
  (at level 20, m at level 100, f at level 200, only parsing).

Definition consult_test (p : regex) (text : jsstring) : Consulting bool :=
  (test p text, [p]).

Definition consult_match (p : regex) (text : jsstring)
    : Consulting (option MatchResult) :=
  (exec p text, [p]).

(** [patterns.some((p) => p.test(text))]: stops at the first hit. *)
Fixpoint some_test (patterns : list regex) (text : jsstring)
    : Consulting bool :=
  match patterns with
  | [] => ret false
  | p :: rest =>
      hit <~ consult_test p text;
      if hit then ret true else some_test rest text
  end.

Section Matcher.
Context `{!LowerCase}.

(** The [for ... of] loop over the restriction patterns. *)
Fixpoint collect (patterns : list regex) (text : jsstring)
    (matches : list jsstring) : Consulting (list jsstring) :=
  match patterns with
  | [] => ret matches
  | pattern :: rest =>
      m <~ consult_match pattern text;
      collect rest text
        match m with
        | Some r => matches ++ [toLowerCase (matched r)]
        | None => matches
        end
  end.

Definition scanForRestrictions_traced (text : jsstring)
    : Consulting (list jsstring) :=
  if negb (truthy text) then ret []
  else
    vetoed <~ some_test EXCLUSION_PATTERNS text;
    if vetoed then ret []
    else
      matches <~ collect RESTRICTION_PATTERNS text [];
      ret (Set_of matches).

(** [scanForRestrictions(text)] of the pattern revision. *)
Definition scanForRestrictions (text : jsstring) : list jsstring :=
  (scanForRestrictions_traced text).1.

(** The patterns one call of [scanForRestrictions] consulted. *)
Definition consulted (text : jsstring) : list regex :=
  (scanForRestrictions_traced text).2.
End Matcher.

(** ** The keyword revision of the matcher *)

Module Keywords.

Definition RESTRICTION_KEYWORDS : list jsstring := map js [
  "no sponsorship";
  "does not provide sponsorship";
  "without visa sponsorship";
  "must be a citizen";
  "us citizen only";
  "u.s. citizen only";
  "u.s. citizenship is required";
  "us citizenship is required";
  "only u.s. citizens are eligible";
  "only us citizens are eligible";
  "gc holders only";
  "no visa support";
  "not eligible for sponsorship";
  "authorized to work without sponsorship";
  "we do not sponsor visas";
  "sponsorship is not available";
  "no h1b sponsorship";
  "no h-1b sponsorship";
  "does not sponsor";
  "will not sponsor";
  "cannot sponsor";
  "unable to sponsor";
  "sponsorship not provided";
  "no work authorization support";
  "no visa sponsorship";
  "citizen or permanent resident only";
  "us permanent resident only";
  "green card holders only";
  "no sponsorship available";
  "sponsorship unavailable"
]%string.

Section Matcher.
Context `{!LowerCase}.

(** [scanForRestrictions(text)] of the keyword revision: every
    keyword the lower-cased text includes, in table order. *)
Definition scanForRestrictions (text : jsstring) : list jsstring :=
  if negb (truthy text) then []
  else
    let lower := toLowerCase text in
    Set_of (filter (fun keyword => includes lower keyword = true)
                   RESTRICTION_KEYWORDS).
End Matcher.

End Keywords.

(** ** The document *)

(** The part of the DOM the extractor reads: text nodes, elements with
    their tag name and children, and nodes of any other kind (comments
    and the like), which a [SHOW_TEXT] walker never reports. *)
#[warnings="-register-all"]
Inductive node :=
  | TextNode (textContent : jsstring)
  | ElementNode (tagName : jsstring) (childNodes : list node)
  | OtherNode.

(** [document.body]: its tag name, its rendered text as the browser
    computes it, and its children. *)
Record Body := {
  bodyTagName : jsstring;
  innerText : jsstring;
  bodyChildNodes : list node
}.

Record Document := { body : option Body }.

Section Extractor.
Context `{!LowerCase}.

(** [['script', 'style', 'noscript'].includes(tagName)] for the
    lower-cased tag name of the parent element. *)
Definition is_skipped_container (parentTagName : jsstring) : bool :=
  let tagName := toLowerCase parentTagName in
  bool_decide (tagName ∈ [js "script"; js "style"; js "noscript"]).

(** The text nodes below an element that [acceptNode] accepts, in
    document order.  A text node below the body always has a parent
    element, so the [!parent] branch is never taken. *)
Fixpoint accepted_text (parentTagName : jsstring) (n : node)
    : list jsstring :=
  match n with
  | TextNode t => if is_skipped_container parentTagName then [] else [t]
  | ElementNode tag children => flat_map (accepted_text tag) children
  | OtherNode => []
  end.

(** The [while] loop: trimmed fragments longer than 5 code units. *)
Definition chunks_of (b : Body) : list jsstring :=
  filter (fun text => truthy text && (5 <? length text)%nat = true)
         (map trim (flat_map (accepted_text (bodyTagName b))
                             (bodyChildNodes b))).

(** The guard of the primary strategy: [inner && inner.length > 50]. *)
Definition primary_suffices (inner : jsstring) : bool :=
  truthy inner && (50 <? length inner)%nat.

Definition getPageText (doc : Document) : jsstring :=
  match body doc with
  | None => []
  | Some b =>
      let inner := innerText b in
      if primary_suffices inner then toLowerCase inner
      else toLowerCase (join (js " ") (chunks_of b))
  end.
End Extractor.

(** ** Script state and the host around it *)

Definition BANNER_ID : string := "visa-sponsorship-detector-banner".
Definition SCAN_DEBOUNCE_MS : nat := 500.
Definition STORAGE_KEY_ENABLED : string := "visaDetectorEnabled".
Definition STORAGE_KEY_HIGHLIGHT : string := "visaDetectorHighlight".

(** One entry of the banner's list: a phrase, or the "+N more" line. *)
Inductive item :=
  | Phrase (phrase : jsstring)
  | More (n : nat).

(** The banner element once it has been created: whether it carries the
    class [vsd-banner-visible], and its list. *)
Record Banner := { visible : bool; items : list item }.

(** The calls the script makes, recorded with the time of the call. *)
Inductive call :=
  | call_performScan
  | call_getPageText
  | call_scanForRestrictions (text : jsstring)
  | call_showBanner (matchedPhrases : list jsstring)
  | call_removeBanner
  | call_highlightMatchedText (matches : list jsstring)
  | call_removeHighlights
  | call_setTimeout (handle : positive) (due : nat)
  | call_clearTimeout (handle : positive).

(** The module variables of the script ([scanTimeout],
    [lastScannedText], [isExtensionEnabled], [highlightMatches], and
    [lastUrl] of [init]), what it has put on the page (the banner, and
    the phrase last handed to the highlighter; the marks themselves live
    in the rendered document), and the host's clock and timer queue.

    Timer handles are integers greater than zero, hence always truthy;
    [timers] holds the pending [performScan] timeouts as pairs of handle
    and due time in milliseconds, earliest first. *)
Record World := {
  scanTimeout : option positive;
  lastScannedText : jsstring;
  isExtensionEnabled : bool;
  highlightMatches : bool;
  lastUrl : jsstring;
  banner : option Banner;
  highlighted : option jsstring;
  now : nat;
  timers : list (positive * nat);
  nextHandle : positive;
  calls : list (nat * call)
}.

Definition set_scanTimeout (v : option positive) (w : World) : World :=
  {| scanTimeout := v; lastScannedText := lastScannedText w;
     isExtensionEnabled := isExtensionEnabled w;
     highlightMatches := highlightMatches w; lastUrl := lastUrl w;
     banner := banner w; highlighted := highlighted w; now := now w;
     timers := timers w; nextHandle := nextHandle w; calls := calls w |}.

Definition set_lastScannedText (v : jsstring) (w : World) : World :=
  {| scanTimeout := scanTimeout w; lastScannedText := v;
     isExtensionEnabled := isExtensionEnabled w;
     highlightMatches := highlightMatches w; lastUrl := lastUrl w;
     banner := banner w; highlighted := highlighted w; now := now w;
     timers := timers w; nextHandle := nextHandle w; calls := calls w |}.

Definition set_isExtensionEnabled (v : bool) (w : World) : World :=
  {| scanTimeout := scanTimeout w; lastScannedText := lastScannedText w;
     isExtensionEnabled := v;
     highlightMatches := highlightMatches w; lastUrl := lastUrl w;
     banner := banner w; highlighted := highlighted w; now := now w;
     timers := timers w; nextHandle := nextHandle w; calls := calls w |}.

Definition set_highlightMatches (v : bool) (w : World) : World :=
  {| scanTimeout := scanTimeout w; lastScannedText := lastScannedText w;
     isExtensionEnabled := isExtensionEnabled w;
     highlightMatches := v; lastUrl := lastUrl w;
     banner := banner w; highlighted := highlighted w; now := now w;
     timers := timers w; nextHandle := nextHandle w; calls := calls w |}.

Definition set_lastUrl (v : jsstring) (w : World) : World :=
  {| scanTimeout := scanTimeout w; lastScannedText := lastScannedText w;
     isExtensionEnabled := isExtensionEnabled w;
     highlightMatches := highlightMatches w; lastUrl := v;
     banner := banner w; highlighted := highlighted w; now := now w;
     timers := timers w; nextHandle := nextHandle w; calls := calls w |}.

Definition set_banner (v : option Banner) (w : World) : World :=
  {| scanTimeout := scanTimeout w; lastScannedText := lastScannedText w;
     isExtensionEnabled := isExtensionEnabled w;
     highlightMatches := highlightMatches w; lastUrl := lastUrl w;
     banner := v; highlighted := highlighted w; now := now w;
     timers := timers w; nextHandle := nextHandle w; calls := calls w |}.

Definition set_highlighted (v : option jsstring) (w : World) : World :=
  {| scanTimeout := scanTimeout w; lastScannedText := lastScannedText w;
     isExtensionEnabled := isExtensionEnabled w;
     highlightMatches := highlightMatches w; lastUrl := lastUrl w;
     banner := banner w; highlighted := v; now := now w;
     timers := timers w; nextHandle := nextHandle w; calls := calls w |}.

Definition set_now (v : nat) (w : World) : World :=
  {| scanTimeout := scanTimeout w; lastScannedText := lastScannedText w;
     isExtensionEnabled := isExtensionEnabled w;
     highlightMatches := highlightMatches w; lastUrl := lastUrl w;
     banner := banner w; highlighted := highlighted w; now := v;
     timers := timers w; nextHandle := nextHandle w; calls := calls w |}.

Definition set_timers (v : list (positive * nat)) (w : World) : World :=
  {| scanTimeout := scanTimeout w; lastScannedText := lastScannedText w;
     isExtensionEnabled := isExtensionEnabled w;
     highlightMatches := highlightMatches w; lastUrl := lastUrl w;
     banner := banner w; highlighted := highlighted w; now := now w;
     timers := v; nextHandle := nextHandle w; calls := calls w |}.

Definition set_nextHandle (v : positive) (w : World) : World :=
  {| scanTimeout := scanTimeout w; lastScannedText := lastScannedText w;
     isExtensionEnabled := isExtensionEnabled w;
     highlightMatches := highlightMatches w; lastUrl := lastUrl w;
     banner := banner w; highlighted := highlighted w; now := now w;
     timers := timers w; nextHandle := v; calls := calls w |}.

(** Record a call at the current time. *)
Definition log_call (c : call) (w : World) : World :=
  {| scanTimeout := scanTimeout w; lastScannedText := lastScannedText w;
     isExtensionEnabled := isExtensionEnabled w;
     highlightMatches := highlightMatches w; lastUrl := lastUrl w;
     banner := banner w; highlighted := highlighted w; now := now w;
     timers := timers w; nextHandle := nextHandle w;
     calls := calls w ++ [(now w, c)] |}.

(** The script state when the content script is loaded. *)
Definition loaded : World :=
  {| scanTimeout := None; lastScannedText := [];
     isExtensionEnabled := true; highlightMatches := false; lastUrl := [];
     banner := None; highlighted := None; now := 0%nat;
     timers := []; nextHandle := 1%positive; calls := [] |}.

(** *** Host timers *)

(** A new timeout goes behind the pending ones that are due no later. *)
Fixpoint enqueue (t : positive * nat) (ts : list (positive * nat))
    : list (positive * nat) :=
  match ts with
  | [] => [t]
  | t' :: rest =>
      if (t'.2 <=? t.2)%nat then t' :: enqueue t rest else t :: ts
  end.

(** [setTimeout(performScan, delay)]: the handle, and the new world. *)
Definition setTimeout (delay : nat) (w : World) : positive * World :=
  let handle := nextHandle w in
  let due := (now w + delay)%nat in
  (handle,
   set_nextHandle (Pos.succ handle)
     (set_timers (enqueue (handle, due) (timers w))
        (log_call (call_setTimeout handle due) w))).

(** [clearTimeout(handle)]: nothing happens for a handle not pending. *)
Definition clearTimeout (handle : positive) (w : World) : World :=
  set_timers (filter (fun t => t.1 <> handle) (timers w))
    (log_call (call_clearTimeout handle) w).

(** *** Banner and highlight *)

(** [removeHighlights()]: every mark is taken out of the document. *)
Definition removeHighlights (w : World) : World :=
  set_highlighted None (log_call call_removeHighlights w).

(** [removeBanner()]: the banner, if there is one, loses its visible
    class; then the highlights go. *)
Definition removeBanner (w : World) : World :=
  let w := log_call call_removeBanner w in
  let w :=
    match banner w with
    | Some b => set_banner (Some {| visible := false; items := items b |}) w
    | None => w
    end in
  removeHighlights w.

(** [showBanner(matchedPhrases)]: the banner is created when missing,
    its list is rebuilt (five phrases at most, then "+N more"), and it
    is made visible. *)
Definition showBanner (matchedPhrases : list jsstring) (w : World) : World :=
  let w := log_call (call_showBanner matchedPhrases) w in
  let list :=
    if (0 <? length matchedPhrases)%nat
    then map Phrase (take 5 matchedPhrases)
         ++ (if (5 <? length matchedPhrases)%nat
             then [More (length matchedPhrases - 5)]
             else [])
    else [] in
  set_banner (Some {| visible := true; items := list |}) w.

(** [highlightMatchedText(matches)]: old marks go, and the first match
    is the phrase looked for in the text nodes. *)
Definition highlightMatchedText (matches : list jsstring) (w : World)
    : World :=
  let w := removeHighlights (log_call (call_highlightMatchedText matches) w) in
  match matches with
  | [] => w
  | keyword :: _ => set_highlighted (Some keyword) w
  end.

(** *** Scanning and scheduling *)

Section Scheduler.
Context `{!LowerCase}.

(** [performScan()], run against the document as it is at that time. *)
Definition performScan (doc : Document) (w : World) : World :=
  let w := log_call call_performScan w in
  if negb (isExtensionEnabled w) then removeBanner w
  else
    let text := getPageText doc in
    let w := log_call call_getPageText w in
    if str_eqb text (lastScannedText w) then w
    else
      let w := set_lastScannedText text w in
      let matches := scanForRestrictions text in
      let w := log_call (call_scanForRestrictions text) w in
      if (0 <? length matches)%nat then
        let w := showBanner matches w in
        if highlightMatches w then highlightMatchedText matches w else w
      else removeBanner w.

(** [debouncedScan()] *)
Definition debouncedScan (w : World) : World :=
  let w :=
    match scanTimeout w with
    | Some handle => clearTimeout handle w
    | None => w
    end in
  let '(handle, w) := setTimeout SCAN_DEBOUNCE_MS w in
  set_scanTimeout (Some handle) w.
End Scheduler.

(** ** Settings and events *)

(** The values a stored setting can take, as far as the script tells
    them apart: it compares with [false] and with [true] only. *)
Inductive jsvalue :=
  | undefined
  | boolean (b : bool)
  | other_value.

Definition is_false (v : jsvalue) : bool :=
  match v with boolean false => true | _ => false end.

Definition is_true (v : jsvalue) : bool :=
  match v with boolean true => true | _ => false end.

(** One entry of the [changes] object of [chrome.storage.onChanged]. *)
Record StorageChange := { newValue : jsvalue }.

(** What the mutation observer callback looks at in a record. *)
Record MutationRecord := { type : string; addedNodes : nat }.

(** [mutations.some(...)] of the observer callback. *)
Definition hasRelevantChange (mutations : list MutationRecord) : bool :=
  existsb (fun m =>
             if String.eqb (type m) "childList" && (0 <? addedNodes m)%nat
             then true
             else if String.eqb (type m) "characterData" then true
             else false)
          mutations.

(** What reaches the script from outside: the direct and delayed calls
    of [debouncedScan] that [init] sets up, a batch of mutation records,
    [popstate], a tick of the URL poll with [location.href] at that
    time, and a storage change. *)
Inductive event :=
  | ev_rescan
  | ev_mutations (mutations : list MutationRecord)
  | ev_popstate
  | ev_poll (href : jsstring)
  | ev_storage (changes : gmap string StorageChange) (area : string).

(** The page as a function of time: the document a scan sees when it
    fires. *)
Record Page := { document_at : nat -> Document }.

Section Events.
Context `{!LowerCase}.

(** The assignments of [loadSettings], given what [storage.sync.get]
    returned, or nothing when it failed. *)
Definition loadSettings (result : option (gmap string jsvalue)) (w : World)
    : World :=
  match result with
  | Some result =>
      let enabled := default undefined (result !! STORAGE_KEY_ENABLED) in
      let highlight := default undefined (result !! STORAGE_KEY_HIGHLIGHT) in
      set_highlightMatches (is_true highlight)
        (set_isExtensionEnabled (negb (is_false enabled)) w)
  | None => set_highlightMatches false (set_isExtensionEnabled true w)
  end.

Definition onStorageChange (changes : gmap string StorageChange)
    (area : string) (w : World) : World :=
  if negb (String.eqb area "sync") && negb (String.eqb area "local") then w
  else
    let w :=
      match changes !! STORAGE_KEY_ENABLED with
      | Some change =>
          let w := set_isExtensionEnabled (negb (is_false (newValue change))) w in
          if negb (isExtensionEnabled w) then removeBanner w
          else debouncedScan w
      | None => w
      end in
    match changes !! STORAGE_KEY_HIGHLIGHT with
    | Some change =>
        let w := set_highlightMatches (is_true (newValue change)) w in
        if highlightMatches w then debouncedScan w else removeHighlights w
    | None => w
    end.

(** The [popstate] listener of [init]. *)
Definition onPopState (w : World) : World :=
  debouncedScan (set_lastScannedText [] w).

(** The callback of the 1500 ms interval of [init]. *)
Definition pollUrl (href : jsstring) (w : World) : World :=
  if negb (str_eqb href (lastUrl w))
  then debouncedScan (set_lastScannedText [] (set_lastUrl href w))
  else w.

(** The mutation observer callback. *)
Definition onMutations (mutations : list MutationRecord) (w : World)
    : World :=
  if hasRelevantChange mutations then debouncedScan w else w.


Definition dispatch (e : event) (w : World) : World :=
  match e with
  | ev_rescan => debouncedScan w
  | ev_mutations mutations => onMutations mutations w
  | ev_popstate => onPopState w
  | ev_poll href => pollUrl href w
  | ev_storage changes area => onStorageChange changes area w
  end.

(** The host runs the pending timeouts that are due by time [t], the
    earliest first, each at its due time (or at once when it is
    overdue); a timeout leaves the queue when it runs. *)
Fixpoint fire (page : Page) (t : nat) (pending : list (positive * nat))
    (w : World) : World :=
  match pending with
  | [] => w
  | (handle, due) :: rest =>
      if (due <=? t)%nat
      then
        let t_fire := Nat.max due (now w) in
        fire page t rest
          (performScan (document_at page t_fire)
             (set_now t_fire (set_timers rest w)))
      else w
  end.

(** Time passes until [t]. *)
Definition advance (page : Page) (t : nat) (w : World) : World :=
  let w := fire page t (timers w) w in
  set_now (Nat.max t (now w)) w.

(** An event arrives at time [t]. *)
Definition deliver (page : Page) (te : nat * event) (w : World) : World :=
  dispatch te.2 (advance page te.1 w).

(** A timeline of events, then time passes until [t_end]. *)
Definition run (page : Page) (timeline : list (nat * event)) (t_end : nat)
    (w : World) : World :=
  advance page t_end (foldl (fun w te => deliver page te w) w timeline).

(** The worlds the script passes through on a timeline: before and
    after each wait. *)
Fixpoint history (page : Page) (timeline : list (nat * event)) (t_end : nat)
    (w : World) : list World :=
  match timeline with
  | [] => [w; advance page t_end w]
  | te :: rest =>
      w :: advance page te.1 w :: history page rest t_end (deliver page te w)
  end.
End Events.

(** The times at which [performScan] ran. *)
Definition scans (w : World) : list nat :=
  omap (fun tc => match tc.2 with
                  | call_performScan => Some tc.1
                  | _ => None
                  end)
       (calls w).

(** Each pending timeout belongs to the handle in [scanTimeout], and
    there is at most one. *)
Definition single_slot (w : World) : Prop :=
  match timers w with
  | [] => True
  | [(handle, _)] => scanTimeout w = Some handle
  | _ => False
  end.

(** ** Notions used to state the properties *)

(** [phrase] occurs in [text] as a contiguous run. *)
Definition occurs_in (phrase text : jsstring) : Prop :=
  exists pre post, text = pre ++ phrase ++ post.

(** Index [i] of [text] is a word boundary in the sense of [\b]. *)
Definition boundary_at (text : jsstring) (i : nat) : bool :=
  is_boundary (reverse (take i text)) (drop i text).

(** A match covers whole words: it starts and ends at a word boundary. *)
Definition whole_words (text : jsstring) (r : MatchResult) : Prop :=
  boundary_at text (index r) = true /\
  boundary_at text (index r + length (matched r)) = true.

(** The character sets a pattern mentions. *)
Fixpoint charsets (r : regex) : list charset :=
  match r with
  | Eps | WordB => []
  | Chr c => [c]
  | Seq a b | Alt a b => charsets a ++ charsets b
  | Opt a => charsets a
  | Quant c _ _ => [c]
  end.

(** What a successful run of a matcher amounts to: it consumed a run
    of code units, each accepted by one of its character sets, and the
    continuation succeeded from there. *)
Definition consumes (cs : list charset) (before after : list code_unit)
    (k : continuation) (e : cursor) : Prop :=
  exists consumed rest,
    after = consumed ++ rest /\
    Forall (fun u => exists c, c ∈ cs /\ cs_match c u = true) consumed /\
    k (reverse consumed ++ before) rest = Some e.

(** A set written with Basic Latin characters and [\s] only. *)
Fixpoint cs_plain (c : charset) : bool :=
  match c with
  | CChar a => a <? 128
  | CSpace => true
  | CRange _ hi => hi <? 128
  | CUnion a b => cs_plain a && cs_plain b
  end.

Definition plain_regex (r : regex) : bool := forallb cs_plain (charsets r).

(** The pattern opens with [\b] on every alternative. *)
Fixpoint starts_with_boundary (r : regex) : bool :=
  match r with
  | WordB => true
  | Seq a _ => starts_with_boundary a
  | Alt a b => starts_with_boundary a && starts_with_boundary b
  | _ => false
  end.

(** The pattern closes with [\b] on every alternative. *)
Fixpoint ends_with_boundary (r : regex) : bool :=
  match r with
  | WordB => true
  | Seq _ b => ends_with_boundary b
  | Alt a b => ends_with_boundary a && ends_with_boundary b
  | _ => false
  end.

(** The phrase a restriction pattern contributes for a text, if any. *)
Definition phrase_of `{!LowerCase} (text : jsstring) (p : regex)
    : option jsstring :=
  (fun r => toLowerCase (matched r)) <$> exec p text.

(** Entry number [i] of [ps] is the first one that yields [x]. *)
Definition first_at {A B} (f : A -> option B) (ps : list A) (x : B) (i : nat)
    : Prop :=
  (exists p, ps !! i = Some p /\ f p = Some x) /\
  forall j p, (j < i)%nat -> ps !! j = Some p -> f p <> Some x.

(** Restriction pattern number [i] is the first to contribute [phrase]. *)
Definition first_matcher `{!LowerCase} (text phrase : jsstring) (i : nat)
    : Prop :=
  first_at (phrase_of text) RESTRICTION_PATTERNS phrase i.

(** [t] is the content of a text node below [n] whose parent element
    has tag name [parent]; [n] itself sits below an element named
    [above]. *)
Inductive text_below : jsstring -> node -> jsstring -> jsstring -> Prop :=
  | text_here above t :
      text_below above (TextNode t) above t
  | text_deeper above tag children child parent t :
      child ∈ children ->
      text_below tag child parent t ->
      text_below above (ElementNode tag children) parent t.

(** The banner is on display. *)
Definition banner_visible (w : World) : bool :=
  match banner w with
  | Some b => visible b
  | None => false
  end.

(** The events that call [debouncedScan] whatever the state. *)
Definition is_trigger (e : event) : bool :=
  match e with
  | ev_rescan | ev_popstate => true
  | ev_mutations mutations => hasRelevantChange mutations
  | ev_poll _ | ev_storage _ _ => false
  end.

(** Arrival times of a burst: the first event at [t], each later one
    [gap] milliseconds after the one before. *)
Fixpoint later (t : nat) (gaps : list nat) : list nat :=
  match gaps with
  | [] => []
  | gap :: rest => (t + gap)%nat :: later (t + gap) rest
  end.

Definition arrivals (t : nat) (gaps : list nat) : list nat :=
  t :: later t gaps.

(** The arrival time of the last event of the burst. *)
Fixpoint last_arrival (t : nat) (gaps : list nat) : nat :=
  match gaps with
  | [] => t
  | gap :: rest => last_arrival (t + gap) rest
  end.

(** The calls made since [w0]. *)
Definition calls_since (w0 w : World) : list (nat * call) :=
  drop (length (calls w0)) (calls w).

(** The scheduler is idle (nothing pending), or armed with one timeout
    a full quiet period ahead. *)
Definition armed (w : World) : Prop :=
  exists handle,
    timers w = [(handle, now w + SCAN_DEBOUNCE_MS)%nat] /\
    scanTimeout w = Some handle.

(** Induction over the document tree. *)
Fixpoint node_induction (P : node -> Prop)
    (Htext : forall t, P (TextNode t))
    (Helement : forall tag children,
        Forall P children -> P (ElementNode tag children))
    (Hother : P OtherNode) (n : node) : P n :=
  match n with
  | TextNode t => Htext t
  | ElementNode tag children =>
      Helement tag children
        ((fix all (l : list node) : Forall P l :=
            match l with
            | [] => List.Forall_nil P
            | x :: l' =>
                @List.Forall_cons node P x l'
                  (node_induction P Htext Helement Hother x) (all l')
            end) children)
  | OtherNode => Hother
  end.

(** ** Sample pages *)

(** What a skipped scan leaves behind: the two calls, nothing else. *)
Definition skipped_scan (w : World) : World :=
  log_call call_getPageText (log_call call_performScan w).

(** A page whose rendered text is exactly 50 code units long; a second
    paragraph and a five-letter fragment are not rendered, and there is
    a script. *)
Definition sample_body : Body :=
  {| bodyTagName := js "BODY";
     innerText := js "Senior engineer wanted; apply online by next week.";
     bodyChildNodes :=
       [ElementNode (js "P")
          [TextNode (js "Senior engineer wanted; apply online by next week.")];
        ElementNode (js "P") [TextNode (js "  No sponsorship  ")];
        ElementNode (js "SPAN") [TextNode (js "Hello")];
        OtherNode;
        ElementNode (js "SCRIPT") [TextNode (js "var sponsorship = 0;")]] |}.

(** A document that renders no text at all. *)
Definition blank_document : Document :=
  {| body := Some {| bodyTagName := js "BODY"; innerText := [];
                     bodyChildNodes := [ElementNode (js "DIV") []] |} |}.

Definition blank_page : Page := {| document_at := fun _ => blank_document |}.

(** A page whose text carries a restriction phrase. *)
Definition posting : Document :=
  {| body := Some {| bodyTagName := js "BODY";
                     innerText := js "Software engineer. We are unable to sponsor visas for this role.";
                     bodyChildNodes := [] |} |}.

Definition posting_page : Page := {| document_at := fun _ => posting |}.

(** ** The popup *)

(** The two checkboxes of [popup.html]. *)
Record Popup := { enabledChecked : bool; highlightChecked : bool }.

(** The assignments of the popup's [DOMContentLoaded] handler, given
    what [storage.sync.get] returned. *)
Definition popup_load (result : gmap string jsvalue) : Popup :=
  {| enabledChecked :=
       negb (is_false (default undefined (result !! STORAGE_KEY_ENABLED)));
     highlightChecked :=
       is_true (default undefined (result !! STORAGE_KEY_HIGHLIGHT)) |}.

(** The items the [change] listeners hand to [storage.sync.set]. *)
Definition popup_enabled_items (checked : bool) : gmap string jsvalue :=
  {[ STORAGE_KEY_ENABLED := boolean checked ]}.

Definition popup_highlight_items (checked : bool) : gmap string jsvalue :=
  {[ STORAGE_KEY_HIGHLIGHT := boolean checked ]}.

(** [storage.sync.set(items)]: the items replace what was stored under
    their keys. *)
Definition storage_set (items store : gmap string jsvalue)
    : gmap string jsvalue :=
  items ∪ store.

(** The [changes] object that [storage.onChanged] delivers for the
    items written. *)
Definition changes_of (items : gmap string jsvalue)
    : gmap string StorageChange :=
  (fun v => {| newValue := v |}) <$> items.

(** ** More notions for the properties *)

(** What one entry of the banner list stands for. *)
Definition item_phrase (i : item) : option jsstring :=
  match i with
  | Phrase p => Some p
  | More _ => None
  end.

Definition item_more (i : item) : nat :=
  match i with
  | Phrase _ => 0%nat
  | More n => n
  end.

(** A mutation record that makes the observer schedule a scan. *)
Definition relevant (m : MutationRecord) : Prop :=
  (type m = "childList"%string /\ (0 < addedNodes m)%nat) \/
  type m = "characterData"%string.

(** Two texts that differ at most in the case of Basic Latin letters. *)
Definition same_letters (s s' : jsstring) : Prop :=
  Forall2 (fun u v => Canonicalize u = Canonicalize v) s s'.

Definition same_cursor (e e' : cursor) : Prop :=
  same_letters e.1 e'.1 /\ same_letters e.2 e'.2.

Definition same_match (r r' : MatchResult) : Prop :=
  index r = index r' /\ same_letters (matched r) (matched r').

(** [content.slice(from, to)] for indices within bounds. *)
Definition slice (s : jsstring) (from to : nat) : jsstring :=
  take (to - from) (drop from s).

Section Highlighter.
Context `{!LowerCase}.

(** The body of the [while] loop of [highlightMatchedText] for one
    text node: where the keyword sits in the lower-cased content, and
    the text the new [span] gets. *)
Definition highlight_in (keyword content : jsstring) : option jsstring :=
  match indexOf (toLowerCase content) keyword with
  | None => None
  | Some idx =>
      let endOffset := Nat.min (idx + length keyword) (length content) in
      Some (slice content idx endOffset)
  end.

(** The text [highlightMatchedText] wraps: the first match, in the
    first accepted text node that contains it. *)
Definition highlight_target (b : Body) (matches : list jsstring)
    : option jsstring :=
  match matches with
  | [] => None
  | keyword :: _ =>
      head (omap (highlight_in keyword)
                 (flat_map (accepted_text (bodyTagName b))
                           (bodyChildNodes b)))
  end.
End Highlighter.

(** A step that runs no scan and lets no time pass, and keeps the
    scheduler to its single slot. *)
Definition quiet_step (w w' : World) : Prop :=
  (single_slot w -> single_slot w') /\
  scans w' = scans w /\ now w' = now w.

(** Two continuations that agree on texts with the same letters. *)
Definition same_continuation (k k' : continuation) : Prop :=
  forall b b' a a',
    same_letters b b' -> same_letters a a' ->
    option_Forall2 same_cursor (k b a) (k' b' a').

(** * Properties *)

(** ** Code units and strings *)

Lemma truthy_length (s : jsstring) : truthy s = false <-> s = [].
Proof. destruct s; simpl; split; congruence. Qed.

Lemma str_eqb_eq (a b : jsstring) : str_eqb a b = true <-> a = b.
Proof. unfold str_eqb. apply bool_decide_eq_true. Qed.

Lemma str_eqb_neq (a b : jsstring) : str_eqb a b = false <-> a <> b.
Proof. unfold str_eqb. apply bool_decide_eq_false. Qed.

Lemma between_spec (lo hi u : N) : between lo hi u = true <-> lo <= u <= hi.
Proof. unfold between. rewrite andb_true_iff, !N.leb_le. tauto. Qed.

Lemma lower_unit_idem (u : code_unit) : lower_unit (lower_unit u) = lower_unit u.
Proof.
  unfold lower_unit.
  destruct (between 65 90 u) eqn:E; [|now rewrite E].
  apply between_spec in E.
  destruct (between 65 90 (u + 32)) eqn:E'; [|reflexivity].
  apply between_spec in E'. lia.
Qed.

Lemma is_space_lower (u : code_unit) : is_space u = true -> lower_unit u = u.
Proof.
  intros Hs. unfold lower_unit.
  destruct (between 65 90 u) eqn:E; [|reflexivity].
  apply between_spec in E. exfalso.
  unfold is_space in Hs.
  repeat (apply orb_true_iff in Hs as [Hs|Hs]);
    try apply between_spec in Hs; try apply N.eqb_eq in Hs; lia.
Qed.

Lemma plain_unit_lower (u : code_unit) :
  plain_unit u = true -> plain_unit (lower_unit u) = true.
Proof.
  unfold plain_unit. intros [Hlt|Hs]%orb_true_iff.
  - apply orb_true_iff. left. apply N.ltb_lt in Hlt. apply N.ltb_lt.
    unfold lower_unit. destruct (between 65 90 u) eqn:E; [|assumption].
    apply between_spec in E. lia.
  - rewrite (is_space_lower _ Hs), Hs. apply orb_true_r.
Qed.

Lemma Canonicalize_small (u : code_unit) : Canonicalize u < 128 -> u < 128.
Proof.
  unfold Canonicalize, upper_unit.
  destruct (between 97 122 u) eqn:E; [|trivial].
  apply between_spec in E. lia.
Qed.

Lemma Canonicalize_le (u : code_unit) : Canonicalize u <= u.
Proof.
  unfold Canonicalize, upper_unit.
  destruct (between 97 122 u) eqn:E; lia.
Qed.

(** ** The matcher *)

Lemma range_from_spec (n : nat) (lo a : N) :
  a ∈ range_from lo n -> lo <= a < lo + N.of_nat n.
Proof.
  revert lo. induction n as [|n IH]; intros lo Hin; simpl in Hin.
  - inversion Hin.
  - apply elem_of_cons in Hin as [->|Hin]; [lia|].
    apply IH in Hin. lia.
Qed.

Lemma range_spec (lo hi a : N) : a ∈ range lo hi -> lo <= a <= hi.
Proof. unfold range. intros Hin%range_from_spec. lia. Qed.

Lemma cs_plain_sound (c : charset) (u : code_unit) :
  cs_plain c = true -> cs_match c u = true -> plain_unit u = true.
Proof.
  induction c as [a| |lo hi|a IHa b IHb]; simpl; intros Hp Hm.
  - apply N.ltb_lt in Hp. apply N.eqb_eq in Hm.
    unfold plain_unit. apply orb_true_iff. left. apply N.ltb_lt.
    apply Canonicalize_small. rewrite <- Hm.
    pose proof (Canonicalize_le a). lia.
  - unfold plain_unit. rewrite Hm. apply orb_true_r.
  - apply N.ltb_lt in Hp. apply existsb_exists in Hm as (a & Hin & Heq).
    apply N.eqb_eq in Heq. apply list_elem_of_In, range_spec in Hin.
    unfold plain_unit. apply orb_true_iff. left. apply N.ltb_lt.
    apply Canonicalize_small. rewrite <- Heq.
    pose proof (Canonicalize_le a). lia.
  - apply andb_true_iff in Hp as [Hpa Hpb].
    apply orb_true_iff in Hm as [Hm|Hm]; auto.
Qed.

Lemma or_else_Some (x y : option cursor) (e : cursor) :
  or_else x y = Some e -> x = Some e \/ y = Some e.
Proof. destruct x; simpl; intros; [left|right]; congruence. Qed.

Lemma consumes_nothing cs before after k e :
  k before after = Some e -> consumes cs before after k e.
Proof. intros Hk. exists [], after. repeat split; [constructor|exact Hk]. Qed.

Lemma consumes_mono cs cs' before after k e :
  cs ⊆ cs' -> consumes cs before after k e -> consumes cs' before after k e.
Proof.
  intros Hsub (consumed & rest & -> & Hall & Hk).
  exists consumed, rest. repeat split; [|exact Hk].
  eapply Forall_impl; [exact Hall|].
  intros u (c & Hc & Hm). exists c. split; [apply Hsub, Hc|exact Hm].
Qed.

Lemma consumes_step cs c u before after' k e :
  c ∈ cs -> cs_match c u = true ->
  consumes cs (u :: before) after' k e ->
  consumes cs before (u :: after') k e.
Proof.
  intros Hc Hm (consumed & rest & -> & Hall & Hk).
  exists (u :: consumed), rest. repeat split.
  - constructor; [exists c; auto|exact Hall].
  - rewrite reverse_cons, <- app_assoc. exact Hk.
Qed.

Lemma consumes_seq cs before after k k' e :
  consumes cs before after k' e ->
  (forall b a, k' b a = Some e -> consumes cs b a k e) ->
  consumes cs before after k e.
Proof.
  intros (c1 & rest1 & -> & Hall1 & Hk1) Hnext.
  destruct (Hnext _ _ Hk1) as (c2 & rest2 & -> & Hall2 & Hk2).
  exists (c1 ++ c2), rest2. repeat split.
  - now rewrite app_assoc.
  - apply Forall_app; auto.
  - rewrite reverse_app, <- app_assoc. exact Hk2.
Qed.

Lemma repeat_set_consumes c min max before after k e :
  repeat_set c min max before after k = Some e ->
  consumes [c] before after k e.
Proof.
  revert min max before.
  induction after as [|u after IH]; intros min max before H.
  - destruct max as [[|n]|], min; simpl in H;
      try discriminate; now apply consumes_nothing.
  - assert (Hstep : forall min' max',
      (if cs_match c u
       then repeat_set c min' max' (u :: before) after k
       else None) = Some e -> consumes [c] before (u :: after) k e).
    { intros min' max' Hs. destruct (cs_match c u) eqn:Hm; [|discriminate].
      eapply consumes_step; [constructor|exact Hm|eauto]. }
    destruct max as [[|n]|]; simpl in H.
    + now apply consumes_nothing.
    + destruct min; [apply or_else_Some in H as [H|H]|]; eauto.
      now apply consumes_nothing.
    + destruct min; [apply or_else_Some in H as [H|H]|]; eauto.
      now apply consumes_nothing.
Qed.

Lemma matcher_consumes r before after k e :
  matcher r before after k = Some e ->
  consumes (charsets r) before after k e.
Proof.
  revert before after k.
  induction r as [|c| |a IHa b IHb|a IHa b IHb|a IHa|c min max];
    intros before after k H; simpl in H.
  - now apply consumes_nothing.
  - destruct after as [|u after']; [discriminate|].
    destruct (cs_match c u) eqn:Hm; [|discriminate].
    eapply consumes_step; [constructor|exact Hm|now apply consumes_nothing].
  - destruct (is_boundary before after); [|discriminate].
    now apply consumes_nothing.
  - simpl. eapply consumes_seq.
    + eapply consumes_mono; [|apply IHa, H]. set_solver.
    + intros b' a' Hb. eapply consumes_mono; [|apply IHb, Hb]. set_solver.
  - simpl. apply or_else_Some in H as [H|H].
    + eapply consumes_mono; [|apply IHa, H]. set_solver.
    + eapply consumes_mono; [|apply IHb, H]. set_solver.
  - simpl. apply or_else_Some in H as [H|H]; [|now apply consumes_nothing].
    eapply consumes_seq; [apply IHa, H|].
    intros b' a' Hk. cbv beta in Hk.
    destruct (length a' =? length after)%nat; [discriminate|].
    now apply consumes_nothing.
  - simpl. eapply repeat_set_consumes, H.
Qed.

Lemma matcher_starts r before after k e :
  starts_with_boundary r = true ->
  matcher r before after k = Some e ->
  is_boundary before after = true.
Proof.
  revert before after k.
  induction r as [|c| |a IHa b IHb|a IHa b IHb|a IHa|c min max];
    intros before after k Hs H; simpl in Hs, H; try discriminate.
  - now destruct (is_boundary before after).
  - eauto.
  - apply andb_true_iff in Hs as [Ha Hb].
    apply or_else_Some in H as [H|H]; eauto.
Qed.

Lemma matcher_ends r before after k e :
  ends_with_boundary r = true ->
  matcher r before after k = Some e ->
  exists consumed rest,
    after = consumed ++ rest /\
    is_boundary (reverse consumed ++ before) rest = true /\
    k (reverse consumed ++ before) rest = Some e.
Proof.
  revert before after k.
  induction r as [|c| |a IHa b IHb|a IHa b IHb|a IHa|c min max];
    intros before after k Hs H; simpl in Hs, H; try discriminate.
  - destruct (is_boundary before after) eqn:Hb; [|discriminate].
    exists [], after. auto.
  - apply matcher_consumes in H as (c1 & rest1 & -> & _ & H).
    apply IHb in H as (c2 & rest2 & -> & Hb & H); [|exact Hs].
    exists (c1 ++ c2), rest2.
    rewrite reverse_app, <- !app_assoc. auto.
  - apply andb_true_iff in Hs as [Ha Hb].
    apply or_else_Some in H as [H|H]; eauto.
Qed.

Lemma exec_from_unfold r i before after :
  exec_from r i before after =
  match matcher r before after accept with
  | Some (_, rest) =>
      Some {| index := i;
              matched := take (length after - length rest)%nat after |}
  | None =>
      match after with
      | [] => None
      | u :: after' => exec_from r (S i) (u :: before) after'
      end
  end.
Proof. destruct after; reflexivity. Qed.

(** What [exec] returns: the text splits into what was skipped, the
    match and the rest, and the matcher accepted the match there. *)
Lemma exec_from_spec r i before after res :
  exec_from r i before after = Some res ->
  exists skipped rest,
    after = skipped ++ matched res ++ rest /\
    index res = (i + length skipped)%nat /\
    matcher r (reverse skipped ++ before) (matched res ++ rest) accept
      = Some (reverse (matched res) ++ reverse skipped ++ before, rest).
Proof.
  revert i before res.
  induction after as [|u after IH]; intros i before res H.
  - simpl in H. destruct (matcher r before [] accept) as [[b' rest]|] eqn:Hm;
      [|discriminate].
    injection H as <-. simpl.
    pose proof (matcher_consumes _ _ _ _ _ Hm) as (c & rest' & Heq & _ & Hk).
    injection Hk as Hb Hr. subst rest' b'.
    symmetry in Heq. apply app_eq_nil in Heq as [-> ->].
    exists [], []. simpl. rewrite Nat.add_0_r. auto.
  - rewrite exec_from_unfold in H.
    destruct (matcher r before (u :: after) accept) as [[b' rest]|] eqn:Hm.
    + injection H as <-. cbn [matched index].
      pose proof (matcher_consumes _ _ _ _ _ Hm) as (c & rest' & Heq & _ & Hk).
      injection Hk as Hb Hr. subst rest' b'.
      assert (Hc : take (length (u :: after) - length rest) (u :: after) = c).
      { rewrite Heq, length_app.
        replace (length c + length rest - length rest)%nat with (length c)
          by lia.
        now rewrite take_app_length. }
      cbn [length] in Hc. rewrite Hc. exists [], rest.
      change (reverse [] ++ before) with before. cbn [app length].
      rewrite Nat.add_0_r, <- Heq. auto.
    + apply IH in H as (skipped & rest & Heq & Hi & H).
      exists (u :: skipped), rest. simpl. rewrite Heq.
      rewrite reverse_cons, <- app_assoc. simpl.
      repeat split; [lia|exact H].
Qed.

Lemma exec_spec r text res :
  exec r text = Some res ->
  exists skipped rest,
    text = skipped ++ matched res ++ rest /\
    index res = length skipped /\
    matcher r (reverse skipped) (matched res ++ rest) accept
      = Some (reverse (matched res) ++ reverse skipped, rest).
Proof.
  intros H. apply exec_from_spec in H as (skipped & rest & Heq & Hi & H).
  exists skipped, rest. rewrite app_nil_r in H. auto.
Qed.

Lemma exec_occurs r text res :
  exec r text = Some res -> occurs_in (matched res) text.
Proof.
  intros (skipped & rest & Heq & _)%exec_spec. now exists skipped, rest.
Qed.

Lemma exec_plain r text res :
  plain_regex r = true -> exec r text = Some res ->
  forallb plain_unit (matched res) = true.
Proof.
  intros Hp (skipped & rest & _ & _ & Hm)%exec_spec.
  apply matcher_consumes in Hm as (c & rest' & Heq & Hall & Hk).
  injection Hk as Hb Hr. subst rest'. apply app_inv_tail in Heq. subst c.
  apply forallb_forall. intros u Hin.
  apply list_elem_of_In in Hin.
  rewrite Forall_forall in Hall. destruct (Hall u Hin) as (c & Hc & Hmu).
  eapply cs_plain_sound; [|exact Hmu].
  unfold plain_regex in Hp. rewrite forallb_forall in Hp.
  apply Hp. now apply list_elem_of_In.
Qed.

(** ** Insertion-ordered sets *)

Lemma Set_of_snoc (l : list jsstring) (x : jsstring) :
  Set_of (l ++ [x]) = Set_add (Set_of l) x.
Proof. unfold Set_of. now rewrite foldl_app. Qed.

Lemma Set_add_elem (s : list jsstring) (x y : jsstring) :
  y ∈ Set_add s x <-> y ∈ s \/ y = x.
Proof.
  unfold Set_add. case_bool_decide as Hin.
  - split; [auto|]. intros [?| ->]; assumption.
  - rewrite elem_of_app, list_elem_of_singleton. tauto.
Qed.

Lemma Set_of_elem (l : list jsstring) (y : jsstring) :
  y ∈ Set_of l <-> y ∈ l.
Proof.
  induction l as [|x l IH] using rev_ind.
  - reflexivity.
  - rewrite Set_of_snoc, Set_add_elem, IH, elem_of_app,
      list_elem_of_singleton. tauto.
Qed.

Lemma Set_of_NoDup (l : list jsstring) : NoDup (Set_of l).
Proof.
  induction l as [|x l IH] using rev_ind.
  - constructor.
  - rewrite Set_of_snoc. unfold Set_add. case_bool_decide as Hin; [exact IH|].
    apply NoDup_app. repeat split; [exact IH| |apply NoDup_singleton].
    intros y Hy ->%list_elem_of_singleton. contradiction.
Qed.

Lemma first_at_app {A B} (f : A -> option B) (ps qs : list A) x i :
  first_at f ps x i -> first_at f (ps ++ qs) x i.
Proof.
  intros [(p & Hp & Hf) Hfirst]. split.
  - exists p. split; [|exact Hf]. now apply lookup_app_l_Some.
  - intros j q Hj Hq. apply (Hfirst j q Hj).
    apply lookup_lt_Some in Hp.
    rewrite lookup_app_l in Hq by lia. exact Hq.
Qed.

Lemma omap_snoc {A B} (f : A -> option B) (ps : list A) (p : A) :
  omap f (ps ++ [p]) = omap f ps ++ option_list (f p).
Proof. rewrite omap_app. simpl. now destruct (f p). Qed.

(** The elements of [Set_of (omap f ps)] stand in the order in which
    the entries of [ps] first yield them. *)
Lemma Set_of_omap_order {A} (f : A -> option jsstring) (ps : list A) :
  (forall x, x ∈ Set_of (omap f ps) -> exists m, first_at f ps x m) /\
  (forall i j a b,
     Set_of (omap f ps) !! i = Some a ->
     Set_of (omap f ps) !! j = Some b ->
     (i < j)%nat ->
     exists m n, first_at f ps a m /\ first_at f ps b n /\ (m < n)%nat).
Proof.
  induction ps as [|p ps [IHin IHord]] using rev_ind.
  - split; [intros x Hx; inversion Hx|intros i j a b Hi; inversion Hi].
  - rewrite omap_snoc.
    destruct (f p) as [x|] eqn:Hfp; simpl option_list.
    2:{ rewrite app_nil_r. split.
        - intros x Hx. destruct (IHin x Hx) as [m Hm].
          exists m. now apply first_at_app.
        - intros i j a b Hi Hj Hij.
          destruct (IHord i j a b Hi Hj Hij) as (m & n & Hm & Hn & Hmn).
          exists m, n. auto using first_at_app. }
    rewrite Set_of_snoc. unfold Set_add. case_bool_decide as Hin.
    { split.
      - intros y Hy. destruct (IHin y Hy) as [m Hm].
        exists m. now apply first_at_app.
      - intros i j a b Hi Hj Hij.
        destruct (IHord i j a b Hi Hj Hij) as (m & n & Hm & Hn & Hmn).
        exists m, n. auto using first_at_app. }
    assert (Hnew : first_at f (ps ++ [p]) x (length ps)).
    { split.
      - exists p. split; [|exact Hfp]. rewrite lookup_app_r by lia.
        now rewrite Nat.sub_diag.
      - intros j q Hj Hq Hfq. apply Hin, Set_of_elem, list_elem_of_omap.
        rewrite lookup_app_l in Hq by lia.
        exists q. split; [|exact Hfq]. eapply list_elem_of_lookup_2, Hq. }
    split.
    + intros y [Hy| ->%list_elem_of_singleton]%elem_of_app.
      * destruct (IHin y Hy) as [m Hm]. exists m. now apply first_at_app.
      * now exists (length ps).
    + intros i j a b Hi Hj Hij.
      assert (Hilt : (i < length (Set_of (omap f ps)))%nat).
      { apply lookup_lt_Some in Hj. rewrite length_app in Hj. simpl in Hj.
        lia. }
      rewrite lookup_app_l in Hi by exact Hilt.
      destruct (decide (j < length (Set_of (omap f ps)))%nat) as [Hjlt|Hjge].
      * rewrite lookup_app_l in Hj by exact Hjlt.
        destruct (IHord i j a b Hi Hj Hij) as (m & n & Hm & Hn & Hmn).
        exists m, n. auto using first_at_app.
      * rewrite lookup_app_r in Hj by lia.
        apply list_lookup_singleton_Some in Hj as [_ <-].
        destruct (IHin a) as [m Hm]; [eapply list_elem_of_lookup_2, Hi|].
        exists m, (length ps). repeat split; try apply first_at_app, Hm;
          try apply Hnew.
        destruct Hm as [(q & Hq & _) _]. now apply lookup_lt_Some in Hq.
Qed.

(** ** The restriction matcher, as a function of the text *)

Lemma bind_fst {A B} (m : Consulting A) (f : A -> Consulting B) :
  (bind m f).1 = (f m.1).1.
Proof. unfold bind. destruct m as [a l1]. simpl. now destruct (f a). Qed.

Lemma some_test_fst (ps : list regex) (text : jsstring) :
  (some_test ps text).1 = existsb (fun p => test p text) ps.
Proof.
  induction ps as [|p ps IH]; [reflexivity|].
  change (some_test (p :: ps) text)
    with (bind (consult_test p text)
            (fun hit => if hit then ret true else some_test ps text)).
  rewrite bind_fst. simpl.
  destruct (test p text); [reflexivity|exact IH].
Qed.

Section MatcherFacts.
Context {host : LowerCase}.

Lemma collect_fst (ps : list regex) (text : jsstring) (acc : list jsstring) :
  (collect ps text acc).1 = acc ++ omap (phrase_of text) ps.
Proof.
  revert acc. induction ps as [|p ps IH]; intros acc.
  - simpl. now rewrite app_nil_r.
  - change (collect (p :: ps) text acc)
      with (bind (consult_match p text)
              (fun m => collect ps text
                 match m with
                 | Some r => acc ++ [toLowerCase (matched r)]
                 | None => acc
                 end)).
    rewrite bind_fst. simpl. rewrite IH.
    unfold phrase_of. destruct (exec p text); simpl;
      [now rewrite <- app_assoc|reflexivity].
Qed.

Lemma scanForRestrictions_eq (text : jsstring) :
  scanForRestrictions text =
  if negb (truthy text) then []
  else if existsb (fun p => test p text) EXCLUSION_PATTERNS then []
       else Set_of (omap (phrase_of text) RESTRICTION_PATTERNS).
Proof.
  unfold scanForRestrictions, scanForRestrictions_traced.
  destruct (negb (truthy text)); [reflexivity|].
  rewrite bind_fst, some_test_fst.
  destruct (existsb _ EXCLUSION_PATTERNS); [reflexivity|].
  rewrite bind_fst, collect_fst. reflexivity.
Qed.

Lemma no_match_in_empty_text (p : regex) :
  p ∈ RESTRICTION_PATTERNS -> exec p [] = None.
Proof.
  assert (H : forallb (fun p => negb (test p [])) RESTRICTION_PATTERNS = true)
    by (vm_compute; reflexivity).
  rewrite forallb_forall in H. intros Hin%list_elem_of_In.
  specialize (H p Hin). unfold test in H. now destruct (exec p []).
Qed.

(** C1, veto precedence: when some exclusion pattern matches anywhere in
    the text, [scanForRestrictions] returns the empty list, whatever the
    restriction patterns would match. *)
Theorem veto_precedence (text : jsstring) :
  (exists p, p ∈ EXCLUSION_PATTERNS /\ test p text = true) ->
  scanForRestrictions text = [].
Proof.
  intros (p & Hin & Ht). rewrite scanForRestrictions_eq.
  destruct (negb (truthy text)); [reflexivity|].
  replace (existsb _ EXCLUSION_PATTERNS) with true; [reflexivity|].
  symmetry. apply existsb_exists. exists p.
  split; [now apply list_elem_of_In|exact Ht].
Qed.

(** C3, dedup and order: for a text no exclusion pattern matches, the
    returned list has no duplicates, holds every phrase a restriction
    pattern contributes, and lists the phrases in the order of the
    patterns that first contribute them. *)
Theorem dedup_in_matcher_order (text : jsstring) :
  (forall p, p ∈ EXCLUSION_PATTERNS -> test p text = false) ->
  NoDup (scanForRestrictions text) /\
  (forall phrase,
     phrase ∈ scanForRestrictions text <->
     exists p, p ∈ RESTRICTION_PATTERNS /\ phrase_of text p = Some phrase) /\
  (forall i j a b,
     scanForRestrictions text !! i = Some a ->
     scanForRestrictions text !! j = Some b ->
     (i < j)%nat ->
     exists m n,
       first_matcher text a m /\ first_matcher text b n /\ (m < n)%nat).
Proof.
  intros Hno.
  assert (Hex : existsb (fun p => test p text) EXCLUSION_PATTERNS = false).
  { apply not_true_is_false. intros (p & Hin & Ht)%existsb_exists.
    apply list_elem_of_In in Hin. rewrite (Hno p Hin) in Ht. discriminate. }
  rewrite scanForRestrictions_eq, Hex.
  destruct (truthy text) eqn:Htext; simpl negb; cbv iota.
  - split; [apply Set_of_NoDup|]. split.
    + intros phrase. rewrite Set_of_elem, list_elem_of_omap. reflexivity.
    + apply Set_of_omap_order.
  - apply truthy_length in Htext. subst text.
    split; [constructor|]. split.
    + intros phrase. split; [intros H; inversion H|].
      intros (p & Hin & Hp). unfold phrase_of in Hp.
      now rewrite (no_match_in_empty_text p Hin) in Hp.
    + intros i j a b Hi. inversion Hi.
Qed.

(** C4, empty text is nothing to scan: a document without a body
    extracts to the empty string, and for the empty string
    [scanForRestrictions] returns the empty list without consulting any
    exclusion or restriction pattern. *)
Theorem empty_text_is_nothing_to_scan :
  getPageText {| body := None |} = [] /\
  scanForRestrictions [] = [] /\
  consulted [] = [].
Proof. repeat split. Qed.

End MatcherFacts.

(** At ["No sponsorship required"] the first restriction pattern
    matches, the third exclusion pattern matches too, and the result is
    empty. *)
Lemma veto_precedence_witness :
  (exists p, p ∈ RESTRICTION_PATTERNS /\
             test p (js "No sponsorship required") = true) /\
  @scanForRestrictions BasicLatin (js "No sponsorship required") = [].
Proof.
  split.
  - eexists. split; [eapply (list_elem_of_lookup_2 _ 0); reflexivity|].
    vm_compute. reflexivity.
  - apply veto_precedence. eexists.
    split; [eapply (list_elem_of_lookup_2 _ 2); reflexivity|].
    vm_compute. reflexivity.
Defined.

Lemma no_exclusion_by_test (text : jsstring) :
  forallb (fun p => negb (test p text)) EXCLUSION_PATTERNS = true ->
  forall p, p ∈ EXCLUSION_PATTERNS -> test p text = false.
Proof.
  intros H p Hin%list_elem_of_In. rewrite forallb_forall in H.
  now apply negb_true_iff, H.
Qed.

(** The phrase ["no sponsorship"] occurs twice below and is reported
    once, ahead of the phrases of the third and eighth pattern. *)
Lemma dedup_in_matcher_order_witness :
  let text := js "No sponsorship. We do not sponsor visas. No sponsorship!" in
  @scanForRestrictions BasicLatin text
    = [js "no sponsorship"; js "we do not sponsor";
       js "we do not sponsor visas"] /\
  NoDup (@scanForRestrictions BasicLatin text) /\
  exists m n, @first_matcher BasicLatin text (js "no sponsorship") m /\
              @first_matcher BasicLatin text (js "we do not sponsor visas") n /\
              (m < n)%nat.
Proof.
  intros text.
  destruct (@dedup_in_matcher_order BasicLatin text) as (Hnd & _ & Hord).
  { apply no_exclusion_by_test. vm_compute. reflexivity. }
  split; [vm_compute; reflexivity|]. split; [exact Hnd|].
  apply (Hord 0%nat 2%nat); [vm_compute; reflexivity..|lia].
Defined.

(** ** Word boundaries *)

Lemma boundary_at_split (skipped rest : jsstring) :
  boundary_at (skipped ++ rest) (length skipped)
  = is_boundary (reverse skipped) rest.
Proof.
  unfold boundary_at. now rewrite take_app_length, drop_app_length.
Qed.

Lemma exec_starts_at_boundary r text res :
  starts_with_boundary r = true -> exec r text = Some res ->
  boundary_at text (index res) = true.
Proof.
  intros Hs (skipped & rest & -> & -> & Hm)%exec_spec.
  rewrite boundary_at_split. eapply matcher_starts; eauto.
Qed.

Lemma exec_ends_at_boundary r text res :
  ends_with_boundary r = true -> exec r text = Some res ->
  boundary_at text (index res + length (matched res)) = true.
Proof.
  intros Hs (skipped & rest & -> & -> & Hm)%exec_spec.
  apply matcher_ends in Hm as (c & rest' & Heq & Hb & Hk); [|exact Hs].
  injection Hk as Hc Hr. subst rest'. apply app_inv_tail in Heq. subst c.
  rewrite app_assoc, <- length_app, boundary_at_split, reverse_app.
  exact Hb.
Qed.

Lemma restriction_patterns_start_at_boundary (p : regex) :
  p ∈ RESTRICTION_PATTERNS -> starts_with_boundary p = true.
Proof.
  assert (H : forallb starts_with_boundary RESTRICTION_PATTERNS = true)
    by (vm_compute; reflexivity).
  rewrite forallb_forall in H. intros Hin%list_elem_of_In. now apply H.
Qed.

(** All restriction patterns but the seventh ([... sponsor]) and the
    nineteenth ([... citizen]) close with [\b]. *)
Lemma restriction_patterns_end_at_boundary (i : nat) (p : regex) :
  RESTRICTION_PATTERNS !! i = Some p -> i <> 6%nat -> i <> 18%nat ->
  ends_with_boundary p = true.
Proof.
  intros Hp H7 H19.
  do 21 (destruct i as [|i];
         [first [congruence | injection Hp as <-; reflexivity]|]).
  discriminate.
Qed.

Lemma restriction_patterns_plain (p : regex) :
  p ∈ RESTRICTION_PATTERNS -> plain_regex p = true.
Proof.
  assert (H : forallb plain_regex RESTRICTION_PATTERNS = true)
    by (vm_compute; reflexivity).
  rewrite forallb_forall in H. intros Hin%list_elem_of_In. now apply H.
Qed.

(** ** Substring search *)

Lemma is_prefix_of_spec (k s : jsstring) :
  is_prefix_of k s = true -> s = k ++ drop (length k) s.
Proof.
  unfold is_prefix_of. intros H%bool_decide_eq_true.
  rewrite <- H at 1. now rewrite take_drop.
Qed.

Lemma indexOf_from_occurs (i : nat) (s k : jsstring) (n : nat) :
  indexOf_from i s k = Some n -> occurs_in k s.
Proof.
  revert i. induction s as [|u s IH]; intros i H.
  - simpl in H. destruct (is_prefix_of k []) eqn:Hp; [|discriminate].
    exists [], (drop (length k) []). now apply is_prefix_of_spec.
  - simpl in H. destruct (is_prefix_of k (u :: s)) eqn:Hp.
    + exists [], (drop (length k) (u :: s)). now apply is_prefix_of_spec.
    + apply IH in H as (pre & post & ->). now exists (u :: pre), post.
Qed.

Lemma includes_occurs (s k : jsstring) :
  includes s k = true -> occurs_in k s.
Proof.
  unfold includes, indexOf. destruct (indexOf_from 0 s k) eqn:H; [|discriminate].
  intros _. eapply indexOf_from_occurs, H.
Qed.

Lemma keywords_plain_lowercase (k : jsstring) :
  k ∈ Keywords.RESTRICTION_KEYWORDS ->
  forallb plain_unit k = true /\ map lower_unit k = k.
Proof.
  assert (H : forallb (fun k => forallb plain_unit k
                                && bool_decide (map lower_unit k = k))
                Keywords.RESTRICTION_KEYWORDS = true)
    by (vm_compute; reflexivity).
  rewrite forallb_forall in H. intros Hin%list_elem_of_In.
  apply H, andb_true_iff in Hin as [Hp Hl].
  now apply bool_decide_eq_true in Hl.
Qed.

(** ** The host mapping *)

Lemma BasicLatin_laws : LowerCaseLaws BasicLatin.
Proof.
  split.
  - reflexivity.
  - intros pre s post _. exists (map lower_unit pre), (map lower_unit post).
    unfold toLowerCase, BasicLatin. now rewrite !map_app.
Qed.

Lemma forallb_plain_lower (s : jsstring) :
  forallb plain_unit s = true -> forallb plain_unit (map lower_unit s) = true.
Proof.
  rewrite !forallb_forall. intros H u (v & <- & Hv)%in_map_iff.
  now apply plain_unit_lower, H.
Qed.

Lemma map_lower_idem (s : jsstring) :
  map lower_unit (map lower_unit s) = map lower_unit s.
Proof.
  rewrite map_map. apply map_ext. intros. apply lower_unit_idem.
Qed.

Section PhraseFacts.
Context {host : LowerCase} {laws : LowerCaseLaws host}.

Lemma keywords_scan_eq (text : jsstring) :
  forallb plain_unit text = true ->
  Keywords.scanForRestrictions text
  = @Keywords.scanForRestrictions BasicLatin text.
Proof.
  intros Hp. unfold Keywords.scanForRestrictions.
  now rewrite (lower_plain text Hp).
Qed.

(** C2 as amended, word boundaries: every match of a restriction
    pattern starts at a word boundary, and ends at one unless the
    pattern is the seventh or the nineteenth of the table, which do not
    close with [\b]; the text ["responsibility"] yields the empty list
    in the pattern revision and in the keyword revision. *)
Theorem boundary_aware_matching :
  (forall text i p r,
     RESTRICTION_PATTERNS !! i = Some p ->
     exec p text = Some r ->
     boundary_at text (index r) = true /\
     (i <> 6%nat -> i <> 18%nat ->
      boundary_at text (index r + length (matched r)) = true)) /\
  scanForRestrictions (js "responsibility") = [] /\
  Keywords.scanForRestrictions (js "responsibility") = [].
Proof.
  split; [|split].
  - intros text i p r Hp Hexec. split.
    + eapply exec_starts_at_boundary; [|exact Hexec].
      eapply restriction_patterns_start_at_boundary, list_elem_of_lookup_2, Hp.
    + intros H7 H19. eapply exec_ends_at_boundary; [|exact Hexec].
      eapply restriction_patterns_end_at_boundary; eauto.
  - vm_compute. reflexivity.
  - rewrite keywords_scan_eq by (vm_compute; reflexivity).
    vm_compute. reflexivity.
Qed.

(** C10, reported phrases occur in the text: every phrase returned by
    [scanForRestrictions], in either revision, is in lower case and
    occurs as a contiguous run of the lower-cased text. *)
Theorem phrases_occur_in_text (text phrase : jsstring) :
  phrase ∈ scanForRestrictions text \/
  phrase ∈ Keywords.scanForRestrictions text ->
  toLowerCase phrase = phrase /\ occurs_in phrase (toLowerCase text).
Proof.
  intros [Hin|Hin].
  - rewrite scanForRestrictions_eq in Hin.
    destruct (negb (truthy text)); [inversion Hin|].
    destruct (existsb _ EXCLUSION_PATTERNS); [inversion Hin|].
    apply Set_of_elem, list_elem_of_omap in Hin as (p & Hp & Hphrase).
    unfold phrase_of in Hphrase.
    destruct (exec p text) as [r|] eqn:Hexec; [|discriminate].
    injection Hphrase as <-.
    pose proof (exec_plain p text r (restriction_patterns_plain p Hp) Hexec)
      as Hplain.
    rewrite (lower_plain _ Hplain). split.
    + rewrite (lower_plain _ (forallb_plain_lower _ Hplain)).
      apply map_lower_idem.
    + apply exec_occurs in Hexec as (pre & post & ->).
      destruct (lower_infix pre (matched r) post Hplain) as (pre' & post' & ->).
      now exists pre', post'.
  - unfold Keywords.scanForRestrictions in Hin.
    destruct (negb (truthy text)); [inversion Hin|].
    apply Set_of_elem, list_elem_of_filter in Hin as [Hinc Hk].
    apply keywords_plain_lowercase in Hk as [Hplain Hlow]. split.
    + rewrite (lower_plain _ Hplain). exact Hlow.
    + now apply includes_occurs.
Qed.

End PhraseFacts.

(** The claim as worded fails.  In ["no visa sponsorship"] the seventh
    restriction pattern matches ["no visa sponsor"], which stops in the
    middle of a word; and the keyword revision reports
    ["no sponsorship"] for ["casino sponsorship"]. *)
Lemma whole_word_matching_fails :
  (exists p r,
     p ∈ RESTRICTION_PATTERNS /\
     exec p (js "no visa sponsorship") = Some r /\
     matched r = js "no visa sponsor" /\
     ~ whole_words (js "no visa sponsorship") r) /\
  @Keywords.scanForRestrictions BasicLatin (js "casino sponsorship")
    = [js "no sponsorship"].
Proof.
  split; [|vm_compute; reflexivity].
  eexists. eexists.
  split; [eapply (list_elem_of_lookup_2 _ 6); reflexivity|].
  split; [vm_compute; reflexivity|].
  split; [reflexivity|].
  intros [_ Hend]. vm_compute in Hend. discriminate.
Qed.

(** In ["We offer no sponsorship."] the first pattern matches
    ["no sponsorship"], from one word boundary to another. *)
Lemma boundary_aware_matching_witness :
  let text := js "We offer no sponsorship." in
  exists p r,
    RESTRICTION_PATTERNS !! 0%nat = Some p /\
    exec p text = Some r /\
    matched r = js "no sponsorship" /\
    boundary_at text (index r) = true /\
    boundary_at text (index r + length (matched r)) = true.
Proof.
  intros text. eexists. eexists.
  split; [reflexivity|]. split; [vm_compute; reflexivity|].
  split; [reflexivity|].
  destruct (proj1 (@boundary_aware_matching BasicLatin BasicLatin_laws)
              text 0%nat _ _ eq_refl eq_refl) as [Hstart Hend].
  split; [exact Hstart|]. apply Hend; lia.
Defined.

(** The phrase reported for the end-to-end text of the specification
    occurs in its lower-cased form. *)
Lemma phrases_occur_in_text_witness :
  let text := js "We are unable to sponsor work visas. US Citizenship Required." in
  @toLowerCase BasicLatin (js "us citizenship required")
    = js "us citizenship required" /\
  occurs_in (js "us citizenship required") (@toLowerCase BasicLatin text).
Proof.
  intros text.
  apply (@phrases_occur_in_text BasicLatin BasicLatin_laws text).
  left. apply list_elem_of_In. vm_compute. right. left. reflexivity.
Defined.

(** ** The extractor *)

Section ExtractorFacts.
Context {host : LowerCase}.

Lemma accepted_text_spec (above : jsstring) (n : node) (t : jsstring) :
  t ∈ accepted_text above n <->
  exists parent,
    text_below above n parent t /\ is_skipped_container parent = false.
Proof.
  revert above. induction n as [t0|tag children IH|] using node_induction;
    intros above.
  - simpl. split.
    + destruct (is_skipped_container above) eqn:Hskip;
        [intros H; inversion H|].
      intros ->%list_elem_of_singleton. exists above. split; [constructor|auto].
    + intros (parent & Hbelow & Hskip). inversion Hbelow; subst.
      rewrite Hskip. constructor.
  - simpl. split.
    + intros (child & Hchild & Ht)%list_elem_of_In%in_flat_map.
      apply list_elem_of_In in Hchild, Ht.
      rewrite Forall_forall in IH.
      apply (IH child Hchild) in Ht as (parent & Hbelow & Hskip).
      exists parent. split; [econstructor; eauto|exact Hskip].
    + intros (parent & Hbelow & Hskip). inversion Hbelow; subst.
      apply list_elem_of_In, in_flat_map.
      exists child. split; [now apply list_elem_of_In|].
      apply list_elem_of_In. rewrite Forall_forall in IH.
      apply (IH child); [assumption|]. eauto.
  - simpl. split; [intros H; inversion H|].
    intros (parent & Hbelow & _). inversion Hbelow.
Qed.

Lemma is_skipped_container_spec (parent : jsstring) :
  is_skipped_container parent = false <->
  toLowerCase parent ∉ [js "script"; js "style"; js "noscript"].
Proof. unfold is_skipped_container. apply bool_decide_eq_false. Qed.

(** C9 as amended, fallback conditions: the rendered text is used when
    it is longer than 50 code units, the node walk when it is at most
    50 long; the walk keeps exactly the trimmed contents, longer than 5
    code units, of the text nodes whose parent element is not a script,
    style or noscript element, and joins them with single spaces. *)
Theorem extractor_fallback (doc : Document) (b : Body) :
  body doc = Some b ->
  ((50 < length (innerText b))%nat ->
   getPageText doc = toLowerCase (innerText b)) /\
  ((length (innerText b) <= 50)%nat ->
   getPageText doc = toLowerCase (join (js " ") (chunks_of b))) /\
  (forall chunk,
     chunk ∈ chunks_of b <->
     (5 < length chunk)%nat /\
     exists child parent t,
       child ∈ bodyChildNodes b /\
       text_below (bodyTagName b) child parent t /\
       (toLowerCase parent ∉ [js "script"; js "style"; js "noscript"]) /\
       chunk = trim t).
Proof.
  intros Hb. unfold getPageText, primary_suffices. rewrite Hb.
  split; [|split].
  - intros Hlen. destruct (innerText b) as [|u inner] eqn:Hinner;
      [simpl in Hlen; lia|].
    simpl truthy. apply Nat.ltb_lt in Hlen. now rewrite Hlen.
  - intros Hlen. apply Nat.ltb_ge in Hlen. rewrite Hlen.
    now rewrite andb_false_r.
  - intros chunk. unfold chunks_of.
    rewrite list_elem_of_filter, list_elem_of_fmap. split.
    + intros [Hkeep (t & -> & Ht)].
      apply andb_true_iff in Hkeep as [_ Hlen%Nat.ltb_lt].
      split; [exact Hlen|].
      apply list_elem_of_In, in_flat_map in Ht as (child & Hchild & Ht).
      apply list_elem_of_In in Hchild, Ht.
      apply accepted_text_spec in Ht as (parent & Hbelow & Hskip).
      exists child, parent, t.
      now rewrite <- is_skipped_container_spec.
    + intros [Hlen (child & parent & t & Hchild & Hbelow & Hskip & ->)].
      split.
      * apply andb_true_iff. split; [|now apply Nat.ltb_lt].
        destruct (trim t); [simpl in Hlen; lia|reflexivity].
      * exists t. split; [reflexivity|].
        apply list_elem_of_In, in_flat_map. exists child.
        split; [now apply list_elem_of_In|].
        apply list_elem_of_In, accepted_text_spec.
        exists parent. now rewrite is_skipped_container_spec.
Qed.

End ExtractorFacts.

(** The claim as worded fails at the thresholds: a rendered text of
    exactly 50 code units is not below 50, yet the node walk is used;
    and a fragment of exactly 5 code units is dropped. *)
Lemma extractor_thresholds_inclusive :
  let doc := {| body := Some sample_body |} in
  length (innerText sample_body) = 50%nat /\
  @getPageText BasicLatin doc
    = js "senior engineer wanted; apply online by next week. no sponsorship" /\
  (@getPageText BasicLatin doc)
    <> (@toLowerCase BasicLatin (innerText sample_body)) /\
  length (js "Hello") = 5%nat /\
  js "Hello" ∉ @chunks_of BasicLatin sample_body.
Proof.
  intros doc. split; [reflexivity|]. split; [vm_compute; reflexivity|].
  split; [vm_compute; discriminate|]. split; [reflexivity|].
  intros Hin%list_elem_of_In. vm_compute in Hin.
  intuition discriminate.
Qed.

(** On the sample page the rendered text is at most 50 long, so the
    walk is used; the script text and the short fragment stay out. *)
Lemma extractor_fallback_witness :
  let doc := {| body := Some sample_body |} in
  @getPageText BasicLatin doc
    = @toLowerCase BasicLatin
        (join (js " ") (@chunks_of BasicLatin sample_body)) /\
  @chunks_of BasicLatin sample_body
    = [js "Senior engineer wanted; apply online by next week.";
       js "No sponsorship"].
Proof.
  intros doc. split; [|vm_compute; reflexivity].
  apply (@extractor_fallback BasicLatin doc sample_body eq_refl).
  vm_compute. lia.
Defined.

(** ** The scheduler *)

Lemma calls_since_app (w0 w : World) (l : list (nat * call)) :
  calls w = calls w0 ++ l -> calls_since w0 w = l.
Proof. unfold calls_since. intros ->. apply drop_app_length. Qed.

Lemma scans_app (w0 w : World) (l : list (nat * call)) :
  calls w = calls w0 ++ l ->
  scans w = scans w0 ++ omap (fun tc => match tc.2 with
                                        | call_performScan => Some tc.1
                                        | _ => None
                                        end) l.
Proof. unfold scans. intros ->. apply omap_app. Qed.

(** [debouncedScan] from a state with at most the one pending timeout:
    that one is cancelled and a new one is due a quiet period from now. *)
Lemma debouncedScan_arms (w : World) :
  single_slot w ->
  let w' := debouncedScan w in
  timers w' = [(nextHandle w, now w + SCAN_DEBOUNCE_MS)%nat] /\
  scanTimeout w' = Some (nextHandle w) /\
  now w' = now w /\
  scans w' = scans w /\
  lastScannedText w' = lastScannedText w /\
  isExtensionEnabled w' = isExtensionEnabled w /\
  highlightMatches w' = highlightMatches w /\
  banner w' = banner w /\
  lastUrl w' = lastUrl w.
Proof.
  unfold single_slot, debouncedScan, setTimeout, clearTimeout, scans.
  destruct w as [st txt en hl url bn hi t ts nh cs]. simpl.
  destruct st as [h|]; simpl.
  - destruct ts as [|[h' d] [|? ?]]; simpl; intros Hs; try contradiction.
    + rewrite !omap_app. simpl. rewrite !app_nil_r. repeat split.
    + injection Hs as ->. rewrite filter_cons_False by (simpl; auto).
      rewrite filter_nil. simpl.
      rewrite !omap_app. simpl. rewrite !app_nil_r. repeat split.
  - destruct ts as [|[h' d] [|? ?]]; simpl; intros Hs;
      try contradiction; try discriminate.
    rewrite !omap_app. simpl. rewrite !app_nil_r. repeat split.
Qed.

Lemma debouncedScan_armed (w : World) :
  single_slot w -> armed (debouncedScan w).
Proof.
  intros Hs. destruct (debouncedScan_arms w Hs) as (Ht & Hst & Hnow & _).
  exists (nextHandle w). now rewrite Hnow.
Qed.

Lemma armed_single_slot (w : World) : armed w -> single_slot w.
Proof. intros (h & Ht & Hs). unfold single_slot. now rewrite Ht. Qed.

Lemma idle_single_slot (w : World) : timers w = [] -> single_slot w.
Proof. unfold single_slot. now intros ->. Qed.

Section SchedulerFacts.
Context {host : LowerCase}.

(** [performScan] leaves the clock and the timers alone, and is
    recorded once. *)
Lemma performScan_frame (doc : Document) (w : World) :
  let w' := performScan doc w in
  timers w' = timers w /\ scanTimeout w' = scanTimeout w /\
  now w' = now w /\ nextHandle w' = nextHandle w /\
  scans w' = scans w ++ [now w].
Proof.
  unfold performScan, removeBanner, showBanner, highlightMatchedText,
    removeHighlights, scans.
  destruct w as [st txt en hl url bn hi t ts nh cs]. simpl.
  destruct en; simpl.
  - destruct (str_eqb _ txt); simpl.
    + rewrite !omap_app. simpl. rewrite !app_nil_r. repeat split.
    + destruct (0 <? length (scanForRestrictions (getPageText doc)))%nat;
        simpl.
      * destruct hl; simpl.
        -- destruct (scanForRestrictions (getPageText doc)); simpl;
             rewrite !omap_app; simpl; rewrite !app_nil_r; repeat split.
        -- rewrite !omap_app. simpl. rewrite !app_nil_r. repeat split.
      * destruct bn; simpl;
          rewrite !omap_app; simpl; rewrite !app_nil_r; repeat split.
  - destruct bn; simpl;
      rewrite !omap_app; simpl; rewrite !app_nil_r; repeat split.
Qed.

(** Waiting with nothing pending only moves the clock. *)
Lemma advance_idle (page : Page) (t : nat) (w : World) :
  timers w = [] -> advance page t w = set_now (Nat.max t (now w)) w.
Proof. unfold advance. now intros ->. Qed.

(** Waiting less than until the pending timeout is due only moves the
    clock. *)
Lemma advance_before_due (page : Page) (t : nat) (w : World) h due :
  timers w = [(h, due)] -> (t < due)%nat ->
  advance page t w = set_now (Nat.max t (now w)) w.
Proof.
  unfold advance. intros -> Hlt. simpl.
  apply Nat.leb_gt in Hlt. now rewrite Hlt.
Qed.

(** Waiting until the pending timeout is due runs [performScan] once,
    at the due time. *)
Lemma advance_fires (page : Page) (t : nat) (w : World) h due :
  timers w = [(h, due)] -> (now w <= due)%nat -> (due <= t)%nat ->
  advance page t w =
  set_now t (performScan (document_at page due)
                         (set_now due (set_timers [] w))).
Proof.
  unfold advance. intros -> Hnow Hdue. simpl.
  apply Nat.leb_le in Hdue as Hdue'. rewrite Hdue'.
  rewrite (Nat.max_l due (now w)) by lia.
  set (w1 := performScan _ _).
  destruct (performScan_frame (document_at page due)
              (set_now due (set_timers [] w))) as (_ & _ & Hn & _).
  fold w1 in Hn. rewrite Hn. simpl. now rewrite Nat.max_l by lia.
Qed.

End SchedulerFacts.

Section PipelineFacts.
Context {host : LowerCase}.

(** C5, disabled pipeline: a scan that fires while [isExtensionEnabled]
    is false calls [removeBanner] and nothing else (no extraction, no
    matching), leaves the banner hidden and the snapshot as it was; and
    a storage change in a listened area that sets the enabled key to
    [false] hides the banner at once. *)
Theorem disabled_pipeline :
  (forall doc w,
     isExtensionEnabled w = false ->
     let w' := performScan doc w in
     calls_since w w'
       = [(now w, call_performScan); (now w, call_removeBanner);
          (now w, call_removeHighlights)] /\
     banner_visible w' = false /\
     lastScannedText w' = lastScannedText w) /\
  (forall changes area change w,
     area = "sync"%string \/ area = "local"%string ->
     changes !! STORAGE_KEY_ENABLED = Some change ->
     newValue change = boolean false ->
     let w' := onStorageChange changes area w in
     isExtensionEnabled w' = false /\
     banner_visible w' = false /\
     (now w, call_removeBanner) ∈ calls_since w w').
Proof.
  split.
  - intros doc w Hoff w'. subst w'.
    unfold performScan, removeBanner, removeHighlights, banner_visible.
    destruct w as [st txt en hl url bn hi t ts nh cs]. simpl in *. subst en.
    simpl. destruct bn; simpl; (split; [|split; reflexivity]);
      apply calls_since_app; simpl; now rewrite <- !app_assoc.
  - intros changes area change w Harea Hkey Hval w'. subst w'.
    unfold onStorageChange. rewrite Hkey, Hval.
    replace (negb (area =? "sync")%string && negb (area =? "local")%string)
      with false by (destruct Harea as [-> | ->]; reflexivity).
    clear Harea. simpl is_false. simpl negb.
    set (w1 := removeBanner (set_isExtensionEnabled false w)).
    assert (H1 : isExtensionEnabled w1 = false /\
                 banner_visible w1 = false /\
                 scanTimeout w1 = scanTimeout w /\ timers w1 = timers w /\
                 now w1 = now w /\
                 calls w1 = calls w ++ [(now w, call_removeBanner);
                                        (now w, call_removeHighlights)]).
    { subst w1. unfold removeBanner, removeHighlights, banner_visible.
      destruct w as [st txt en hl url bn hi t ts nh cs]. simpl.
      destruct bn; simpl; rewrite <- !app_assoc; repeat split. }
    destruct H1 as (Hen & Hbn & Hst & Hts & Hnow & Hcalls).
    change (isExtensionEnabled (set_isExtensionEnabled false w)) with false.
    simpl negb. cbv iota. fold w1.
    destruct (changes !! STORAGE_KEY_HIGHLIGHT) as [c|].
    + destruct (is_true (newValue c)) eqn:Hc.
      * change (highlightMatches (set_highlightMatches true w1)) with true.
        cbv iota. revert Hen Hbn Hcalls.
        unfold debouncedScan, setTimeout, clearTimeout, banner_visible,
          calls_since.
        destruct w1 as [st1 txt1 en1 hl1 url1 bn1 hi1 t1 ts1 nh1 cs1].
        simpl. intros -> Hbn ->.
        destruct st1; simpl; (split; [reflexivity|split; [exact Hbn|]]);
          rewrite <- !app_assoc, drop_app_length;
          apply list_elem_of_In; simpl; auto.
      * change (highlightMatches (set_highlightMatches false w1)) with false.
        cbv iota. revert Hen Hbn Hcalls.
        unfold removeHighlights, banner_visible, calls_since.
        destruct w1 as [st1 txt1 en1 hl1 url1 bn1 hi1 t1 ts1 nh1 cs1].
        simpl. intros -> Hbn ->.
        split; [reflexivity|split; [exact Hbn|]].
        rewrite <- !app_assoc, drop_app_length.
        apply list_elem_of_In. simpl. auto.
    + split; [exact Hen|split; [exact Hbn|]].
      rewrite (calls_since_app _ _ _ Hcalls).
      apply list_elem_of_In. simpl. auto.
Qed.

(** C6, idempotent re-scan: a scan that fires while the extracted text
    equals the snapshot records the extraction and changes nothing else
    (no matcher call, no banner call); a second scan of an unchanged
    document is therefore skipped; and scanning the same text again
    from a stale snapshot leaves the same banner and highlight. *)
Theorem idempotent_rescan :
  (forall doc w,
     isExtensionEnabled w = true ->
     getPageText doc = lastScannedText w ->
     performScan doc w = skipped_scan w) /\
  (forall doc w,
     isExtensionEnabled w = true ->
     performScan doc (performScan doc w) = skipped_scan (performScan doc w)) /\
  (forall doc w stale,
     isExtensionEnabled w = true ->
     stale <> getPageText doc ->
     let rescan w := performScan doc (set_lastScannedText stale w) in
     banner (rescan (rescan w)) = banner (rescan w) /\
     highlighted (rescan (rescan w)) = highlighted (rescan w)).
Proof.
  assert (Hskip : forall doc w,
            isExtensionEnabled w = true ->
            getPageText doc = lastScannedText w ->
            performScan doc w = skipped_scan w).
  { intros doc w Hon Hsame. unfold performScan, skipped_scan.
    destruct w as [st txt en hl url bn hi t ts nh cs]. simpl in *.
    subst en txt. simpl. unfold str_eqb.
    now rewrite bool_decide_eq_true_2 by reflexivity. }
  split; [exact Hskip|]. split.
  - intros doc w Hon. apply Hskip.
    + revert Hon. unfold performScan, removeBanner, showBanner,
        highlightMatchedText, removeHighlights.
      destruct w as [st txt en hl url bn hi t ts nh cs]. simpl.
      intros ->. simpl.
      destruct (str_eqb _ txt); simpl; [reflexivity|].
      destruct (0 <? _)%nat; simpl.
      * destruct hl; simpl; [|reflexivity].
        now destruct (scanForRestrictions _).
      * now destruct bn.
    + unfold performScan, removeBanner, showBanner,
        highlightMatchedText, removeHighlights.
      destruct w as [st txt en hl url bn hi t ts nh cs]. simpl in *.
      subst en. simpl.
      destruct (str_eqb _ txt) eqn:Heq; simpl.
      * now apply str_eqb_eq in Heq.
      * destruct (0 <? _)%nat; simpl.
        -- destruct hl; simpl; [|reflexivity].
           now destruct (scanForRestrictions _).
        -- now destruct bn.
  - intros doc w stale Hon Hstale rescan. subst rescan.
    apply str_eqb_neq in Hstale.
    assert (Hneq : str_eqb (getPageText doc) stale = false).
    { apply str_eqb_neq. apply str_eqb_neq in Hstale. congruence. }
    unfold performScan, removeBanner, showBanner,
      highlightMatchedText, removeHighlights.
    destruct w as [st txt en hl url bn hi t ts nh cs]. simpl in *.
    subst en. simpl. rewrite Hneq. simpl.
    destruct (0 <? _)%nat; simpl.
    + destruct hl; simpl.
      * destruct (scanForRestrictions _); simpl; rewrite ?Hneq; simpl;
          split; reflexivity.
      * rewrite ?Hneq. simpl. split; reflexivity.
    + destruct bn; simpl; rewrite ?Hneq; simpl; split; reflexivity.
Qed.

End PipelineFacts.

Section NavigationFacts.
Context {host : LowerCase}.

(** A scan that fires enabled on a text other than the snapshot hands
    the text to the matcher. *)
Lemma performScan_scans (doc : Document) (w : World) :
  isExtensionEnabled w = true ->
  getPageText doc <> lastScannedText w ->
  exists rest,
    calls (performScan doc w)
    = calls w ++ (now w, call_performScan) :: (now w, call_getPageText)
        :: (now w, call_scanForRestrictions (getPageText doc)) :: rest.
Proof.
  intros Hon Hneq%str_eqb_neq.
  unfold performScan, removeBanner, showBanner, highlightMatchedText,
    removeHighlights.
  destruct w as [st txt en hl url bn hi t ts nh cs]. simpl in *.
  subst en. simpl. rewrite Hneq. simpl.
  destruct (0 <? _)%nat; simpl.
  - destruct hl; simpl.
    + destruct (scanForRestrictions _); simpl;
        rewrite <- !app_assoc; simpl; eauto.
    + rewrite <- !app_assoc. simpl. eauto.
  - destruct bn; simpl; rewrite <- !app_assoc; simpl; eauto.
Qed.

(** C7 as amended, navigation forces a re-scan: a [popstate] event, or
    a poll tick that sees a URL different from the last one, empties
    the snapshot and arms the timeout; when that timeout fires with the
    extension enabled and the extracted text is not empty, the text is
    handed to the matcher, whatever the snapshot was before. *)
Theorem navigation_forces_rescan (page : Page) (w : World) (e : event) :
  single_slot w ->
  isExtensionEnabled w = true ->
  e = ev_popstate \/ (exists href, e = ev_poll href /\ href <> lastUrl w) ->
  let w1 := dispatch e w in
  let t := (now w + SCAN_DEBOUNCE_MS)%nat in
  let text := getPageText (document_at page t) in
  lastScannedText w1 = [] /\
  armed w1 /\
  (text <> [] ->
   (t, call_scanForRestrictions text) ∈ calls_since w1 (advance page t w1)).
Proof.
  intros Hslot Hon He w1 t text.
  assert (Hw1 : exists w0, w1 = debouncedScan (set_lastScannedText [] w0) /\
                           timers w0 = timers w /\
                           scanTimeout w0 = scanTimeout w /\
                           now w0 = now w /\
                           isExtensionEnabled w0 = true).
  { subst w1. destruct He as [-> | (href & -> & Hne)].
    - exists w. now repeat split.
    - exists (set_lastUrl href w). simpl. unfold pollUrl.
      apply str_eqb_neq in Hne. rewrite Hne. now repeat split. }
  destruct Hw1 as (w0 & Hw1 & Hts & Hst & Hnow & Hon0).
  assert (Hslot0 : single_slot (set_lastScannedText [] w0)).
  { unfold single_slot in *. simpl. now rewrite Hts, Hst. }
  destruct (debouncedScan_arms _ Hslot0)
    as (Htimers & Hhandle & Hnow1 & _ & Htext1 & Hen1 & _).
  rewrite <- Hw1 in Htimers, Hhandle, Hnow1, Htext1, Hen1.
  simpl in Htimers, Hnow1, Htext1, Hen1. rewrite Hnow in Htimers, Hnow1.
  split; [exact Htext1|]. split.
  { exists (nextHandle w0). now rewrite Hnow1. }
  intros Hnonempty. fold t in Htimers.
  rewrite (advance_fires page t w1 _ t Htimers) by (subst t; lia).
  set (w2 := set_now t (set_timers [] w1)).
  destruct (performScan_scans (document_at page t) w2) as [rest Hcalls].
  - subst w2. simpl. now rewrite Hen1.
  - subst w2. simpl. rewrite Htext1. exact Hnonempty.
  - unfold calls_since. simpl calls.
    replace (calls w1) with (calls w2) by reflexivity.
    rewrite Hcalls, drop_app_length. fold text.
    replace (now w2) with t by reflexivity.
    apply list_elem_of_In. simpl. auto.
Qed.

End NavigationFacts.

(** The claim as worded fails on a page without text: after [popstate]
    the timeout fires with the extension enabled, the extracted text is
    empty like the emptied snapshot, and the scan is skipped without a
    call of the matcher. *)
Lemma navigation_to_blank_page_is_skipped :
  let w := @advance BasicLatin blank_page 500 (dispatch ev_popstate loaded) in
  single_slot loaded /\
  isExtensionEnabled loaded = true /\
  calls w = [(0%nat, call_setTimeout 1 500); (500%nat, call_performScan);
             (500%nat, call_getPageText)] /\
  ~ exists text, (500%nat, call_scanForRestrictions text) ∈ calls w.
Proof.
  intros w. split; [exact I|]. split; [reflexivity|].
  assert (Hcalls : calls w = [(0%nat, call_setTimeout 1 500);
                              (500%nat, call_performScan);
                              (500%nat, call_getPageText)])
    by (vm_compute; reflexivity).
  split; [exact Hcalls|]. rewrite Hcalls. intros [text Hin].
  apply list_elem_of_In in Hin. simpl in Hin. intuition discriminate.
Qed.

(** The posting was scanned, then the history changes while the text
    stays the same: the timeout fires and the matcher runs again. *)
Lemma navigation_forces_rescan_witness :
  let w := @performScan BasicLatin posting loaded in
  let text := @getPageText BasicLatin posting in
  lastScannedText w = text /\
  (500%nat, call_scanForRestrictions text)
    ∈ calls_since (dispatch ev_popstate w)
        (@advance BasicLatin posting_page 500 (dispatch ev_popstate w)).
Proof.
  intros w text. split; [vm_compute; reflexivity|].
  apply (@navigation_forces_rescan BasicLatin posting_page w ev_popstate).
  - exact I.
  - reflexivity.
  - left. reflexivity.
  - vm_compute. discriminate.
Defined.

Section DebounceFacts.
Context {host : LowerCase}.

(** A trigger event cancels what is pending and arms a fresh timeout;
    no scan runs. *)
Lemma trigger_arms (e : event) (w : World) :
  is_trigger e = true -> single_slot w ->
  armed (dispatch e w) /\
  now (dispatch e w) = now w /\
  scans (dispatch e w) = scans w.
Proof.
  intros Htrig Hslot.
  assert (H : exists w0, dispatch e w = debouncedScan w0 /\ single_slot w0 /\
                         now w0 = now w /\ scans w0 = scans w).
  { destruct e as [|mutations| |href|changes area]; simpl in *;
      try discriminate.
    - now exists w.
    - unfold onMutations. rewrite Htrig. now exists w.
    - now exists (set_lastScannedText [] w). }
  destruct H as (w0 & -> & Hslot0 & Hnow & Hscans).
  split; [now apply debouncedScan_armed|].
  destruct (debouncedScan_arms w0 Hslot0) as (_ & _ & Hn & Hs & _).
  rewrite Hn, Hs. auto.
Qed.

Lemma run_cons (page : Page) te timeline t_end (w : World) :
  run page (te :: timeline) t_end w
  = run page timeline t_end (deliver page te w).
Proof. reflexivity. Qed.

(** From an armed state: further triggers, each within the quiet period
    of the one before, put off the scan; it runs once, a quiet period
    after the last of them. *)
Lemma burst_from_armed (page : Page) (gaps : list nat) :
  forall (events : list event) (w : World) (t_end : nat),
    armed w ->
    length events = length gaps ->
    Forall (fun e => is_trigger e = true) events ->
    Forall (fun gap => (gap < SCAN_DEBOUNCE_MS)%nat) gaps ->
    (last_arrival (now w) gaps + SCAN_DEBOUNCE_MS <= t_end)%nat ->
    let timeline := zip (later (now w) gaps) events in
    scans (run page timeline t_end w)
      = scans w ++ [(last_arrival (now w) gaps + SCAN_DEBOUNCE_MS)%nat] /\
    Forall (fun w' => (length (timers w') <= 1)%nat)
           (history page timeline t_end w).
Proof.
  induction gaps as [|gap gaps IH];
    intros events w t_end Harmed Hlen Htrig Hgaps Hend.
  - destruct events; [|discriminate]. simpl in *.
    destruct Harmed as (h & Hts & Hst). unfold run. simpl foldl.
    rewrite (advance_fires page t_end w h _ Hts) by lia.
    set (w1 := set_now _ (set_timers [] w)).
    destruct (performScan_frame (document_at page (now w + SCAN_DEBOUNCE_MS))
                w1) as (Hts1 & _ & _ & _ & Hscans).
    split.
    + unfold scans at 1. simpl calls. fold (scans (performScan
        (document_at page (now w + SCAN_DEBOUNCE_MS)) w1)).
      rewrite Hscans. reflexivity.
    + constructor; [rewrite Hts; simpl; lia|].
      constructor; [|constructor].
      simpl timers. rewrite Hts1. simpl. lia.
  - destruct events as [|e events]; [discriminate|].
    injection Hlen as Hlen.
    apply Forall_cons in Htrig as [He Htrig].
    apply Forall_cons in Hgaps as [Hgap Hgaps].
    simpl in Hend. simpl later. simpl zip. cbv zeta.
    pose proof Harmed as (h & Hts & Hst).
    assert (Hwait : advance page (now w + gap) w
                    = set_now (now w + gap) w).
    { rewrite (advance_before_due page _ w h _ Hts) by lia.
      now rewrite Nat.max_l by lia. }
    assert (Hslot : single_slot (set_now (now w + gap) w)).
    { apply (armed_single_slot w) in Harmed. exact Harmed. }
    destruct (trigger_arms e _ He Hslot) as (Harmed' & Hnow' & Hscans').
    simpl in Hnow', Hscans'.
    set (w' := deliver page ((now w + gap)%nat, e) w).
    assert (Hw' : w' = dispatch e (set_now (now w + gap) w)).
    { subst w'. unfold deliver. simpl. now rewrite Hwait. }
    rewrite <- Hw' in Harmed', Hnow', Hscans'.
    destruct (IH events w' t_end Harmed' Hlen Htrig Hgaps) as [Hs Hh].
    { rewrite Hnow'. exact Hend. }
    rewrite Hnow' in Hs, Hh. rewrite run_cons. fold w'. split.
    + rewrite Hs. f_equal. exact Hscans'.
    + simpl history. fold w'. simpl fst. rewrite Hwait.
      constructor; [rewrite Hts; simpl; lia|].
      constructor; [simpl; rewrite Hts; simpl; lia|exact Hh].
Qed.

(** C8, debounce coalescing: from an idle scheduler, a burst of one or
    more trigger events in which each arrives before the quiet period
    of the one before has elapsed leads to exactly one run of
    [performScan], a quiet period after the last event, and at no point
    is more than one timeout pending. *)
Theorem debounce_coalescing (page : Page) (w : World) (t1 : nat)
    (events : list event) (gaps : list nat) (t_end : nat) :
  timers w = [] ->
  (now w <= t1)%nat ->
  length events = S (length gaps) ->
  Forall (fun e => is_trigger e = true) events ->
  Forall (fun gap => (gap < SCAN_DEBOUNCE_MS)%nat) gaps ->
  (last_arrival t1 gaps + SCAN_DEBOUNCE_MS <= t_end)%nat ->
  let timeline := zip (arrivals t1 gaps) events in
  scans (run page timeline t_end w)
    = scans w ++ [(last_arrival t1 gaps + SCAN_DEBOUNCE_MS)%nat] /\
  Forall (fun w' => (length (timers w') <= 1)%nat)
         (history page timeline t_end w).
Proof.
  intros Hidle Hnow Hlen Htrig Hgaps Hend.
  destruct events as [|e events]; [discriminate|].
  injection Hlen as Hlen. apply Forall_cons in Htrig as [He Htrig].
  unfold arrivals. simpl zip. cbv zeta.
  assert (Hwait : advance page t1 w = set_now t1 w).
  { rewrite (advance_idle page t1 w Hidle). now rewrite Nat.max_l by lia. }
  assert (Hslot : single_slot (set_now t1 w)).
  { apply idle_single_slot. exact Hidle. }
  destruct (trigger_arms e _ He Hslot) as (Harmed' & Hnow' & Hscans').
  simpl in Hnow', Hscans'.
  set (w' := deliver page (t1, e) w).
  assert (Hw' : w' = dispatch e (set_now t1 w)).
  { subst w'. unfold deliver. simpl. now rewrite Hwait. }
  rewrite <- Hw' in Harmed', Hnow', Hscans'.
  destruct (burst_from_armed page gaps events w' t_end Harmed' Hlen Htrig Hgaps)
    as [Hs Hh].
  { rewrite Hnow'. exact Hend. }
  rewrite Hnow' in Hs, Hh. rewrite run_cons. fold w'. split.
  - rewrite Hs. f_equal. exact Hscans'.
  - simpl history. fold w'. simpl fst. rewrite Hwait.
    constructor; [rewrite Hidle; simpl; lia|].
    constructor; [simpl; rewrite Hidle; simpl; lia|exact Hh].
Qed.

End DebounceFacts.

(** ** The properties at work *)

(** A banner is on display; a scan fires disabled and hides it, and so
    does a change of the enabled key to [false] in the sync area. *)
Lemma disabled_pipeline_witness :
  let shown := showBanner [js "no sponsorship"] loaded in
  let off := set_isExtensionEnabled false shown in
  let changes : gmap string StorageChange :=
    {[ STORAGE_KEY_ENABLED := {| newValue := boolean false |} ]} in
  banner_visible shown = true /\
  banner_visible (@performScan BasicLatin posting off) = false /\
  lastScannedText (@performScan BasicLatin posting off) = [] /\
  banner_visible (onStorageChange changes "sync" shown) = false.
Proof.
  intros shown off changes.
  destruct (@disabled_pipeline BasicLatin) as [Hscan Hstore].
  split; [reflexivity|].
  destruct (Hscan posting off eq_refl) as (_ & Hhidden & Hsnapshot).
  split; [exact Hhidden|]. split; [exact Hsnapshot|].
  apply (Hstore changes "sync"%string {| newValue := boolean false |} shown).
  - left. reflexivity.
  - vm_compute. reflexivity.
  - reflexivity.
Defined.

(** The posting has been scanned; the next scan of the same document
    is skipped, and the banner stays as it was. *)
Lemma idempotent_rescan_witness :
  let w := @performScan BasicLatin posting loaded in
  banner_visible w = true /\
  @performScan BasicLatin posting w = skipped_scan w /\
  banner (@performScan BasicLatin posting w) = banner w.
Proof.
  intros w.
  assert (Hskip : @performScan BasicLatin posting w = skipped_scan w).
  { apply (proj1 (@idempotent_rescan BasicLatin) posting w).
    - reflexivity.
    - vm_compute. reflexivity. }
  split; [vm_compute; reflexivity|]. split; [exact Hskip|].
  rewrite Hskip. reflexivity.
Defined.

(** Three triggers at 0, 200 and 699 ms: one scan, at 1199 ms. *)
Lemma debounce_coalescing_witness :
  let events :=
    [ev_rescan;
     ev_mutations [{| type := "childList"; addedNodes := 3 |}];
     ev_popstate] in
  let timeline := zip (arrivals 0 [200; 499]%nat) events in
  scans (@run BasicLatin posting_page timeline 5000 loaded) = [1199%nat] /\
  Forall (fun w' => (length (timers w') <= 1)%nat)
         (@history BasicLatin posting_page timeline 5000 loaded).
Proof.
  intros events timeline.
  apply (@debounce_coalescing BasicLatin posting_page loaded 0 events
           [200; 499]%nat 5000).
  - reflexivity.
  - simpl. lia.
  - reflexivity.
  - repeat (apply List.Forall_cons; [reflexivity|]). apply List.Forall_nil.
  - repeat (apply List.Forall_cons; [unfold SCAN_DEBOUNCE_MS; lia|]).
    apply List.Forall_nil.
  - simpl. unfold SCAN_DEBOUNCE_MS. lia.
Defined.

(** The end-to-end scenarios of the specification. *)
Example restriction_scenario :
  @scanForRestrictions BasicLatin
    (js "We are unable to sponsor work visas for this position. US Citizenship Required.")
  = [js "unable to sponsor"; js "us citizenship required"].
Proof. vm_compute. reflexivity. Qed.

Example sponsorship_available_scenario :
  @scanForRestrictions BasicLatin
    (js "Sponsorship is available for qualified candidates.") = [].
Proof. vm_compute. reflexivity. Qed.

Example posting_scan_shows_banner :
  banner (@performScan BasicLatin posting loaded)
  = Some {| visible := true; items := [Phrase (js "unable to sponsor")] |}.
Proof. vm_compute. reflexivity. Qed.

(** * Further properties of the script *)

(** ** The banner list *)

Lemma showBanner_items (matchedPhrases : list jsstring) (w : World) :
  exists b,
    banner (showBanner matchedPhrases w) = Some b /\
    visible b = true /\
    omap item_phrase (items b) = take 5 matchedPhrases /\
    sum_list (item_more <$> items b) = (length matchedPhrases - 5)%nat /\
    (length (items b) <= 6)%nat /\
    (forall n, More n ∈ items b -> (1 <= n)%nat).
Proof.
  unfold showBanner. simpl. eexists. split; [reflexivity|].
  split; [reflexivity|]. simpl.
  assert (Hphrases : forall l : list jsstring,
            omap item_phrase (map Phrase l) = l)
    by (induction l as [|? ? IH]; [reflexivity|];
        change (omap item_phrase (map Phrase (a :: l)))
          with (a :: omap item_phrase (map Phrase l)); now rewrite IH).
  assert (Hmore : forall l : list jsstring,
            sum_list (item_more <$> map Phrase l) = 0%nat)
    by (induction l as [|? ? IH]; [reflexivity|exact IH]).
  assert (Hnot : forall (l : list jsstring) n, More n ∉ map Phrase l).
  { intros l n (p & Hp & _)%list_elem_of_In%in_map_iff. discriminate. }
  destruct matchedPhrases as [|p ps].
  { simpl. split; [reflexivity|]. split; [reflexivity|]. split; [lia|].
    intros n Hn. inversion Hn. }
  change (0 <? length (p :: ps))%nat with true. cbv iota.
  destruct (5 <? length (p :: ps))%nat eqn:Hlen.
  - apply Nat.ltb_lt in Hlen. rewrite omap_app, Hphrases. simpl omap.
    rewrite app_nil_r, fmap_app, sum_list_with_app.
    change (sum_list_with id (item_more <$> map Phrase (take 5 (p :: ps))))
      with (sum_list (item_more <$> map Phrase (take 5 (p :: ps)))).
    rewrite Hmore, length_app, length_map, length_take.
    split; [reflexivity|].
    remember (length (p :: ps)) as len eqn:Hl. clear Hl.
    split; [simpl; lia|]. split; [cbn [length]; lia|].
    intros n [Hn|Hn%list_elem_of_singleton]%elem_of_app.
    + now apply Hnot in Hn.
    + injection Hn as ->. lia.
  - apply Nat.ltb_ge in Hlen. rewrite app_nil_r, Hphrases, Hmore, length_map,
      length_take.
    split; [reflexivity|].
    remember (length (p :: ps)) as len eqn:Hl. clear Hl.
    split; [lia|]. split; [lia|].
    intros n Hn. now apply Hnot in Hn.
Qed.


(** ** Mutation records *)

(** X2: the observer callback schedules a scan exactly when the batch
    holds a [childList] record with added nodes or a [characterData]
    record; any other batch (attribute changes, removals only, the
    empty batch) leaves the script state as it is. *)
Theorem only_relevant_mutations_schedule (mutations : list MutationRecord)
    (w : World) :
  (hasRelevantChange mutations = true <->
   exists m, m ∈ mutations /\ relevant m) /\
  (hasRelevantChange mutations = true ->
   onMutations mutations w = debouncedScan w) /\
  ((forall m, m ∈ mutations -> ~ relevant m) ->
   onMutations mutations w = w).
Proof.
  assert (Hone : forall m,
    (if String.eqb (type m) "childList" && (0 <? addedNodes m)%nat then true
     else if String.eqb (type m) "characterData" then true else false) = true
    <-> relevant m).
  { intros m. unfold relevant.
    destruct (String.eqb_spec (type m) "childList") as [Hc|Hc];
      destruct (Nat.ltb_spec 0 (addedNodes m)) as [Ha|Ha]; simpl;
      destruct (String.eqb_spec (type m) "characterData") as [Hd|Hd];
      split; try tauto; try congruence; try (intros [[? ?]|?]; try lia;
      congruence). }
  assert (Hiff : hasRelevantChange mutations = true <->
                 exists m, m ∈ mutations /\ relevant m).
  { unfold hasRelevantChange. rewrite existsb_exists. split.
    - intros (m & Hin & Hm). exists m.
      split; [now apply list_elem_of_In|now apply Hone].
    - intros (m & Hin & Hm). exists m.
      split; [now apply list_elem_of_In|now apply Hone]. }
  split; [exact Hiff|]. split.
  - intros H. unfold onMutations. now rewrite H.
  - intros Hnone. unfold onMutations.
    destruct (hasRelevantChange mutations); [|reflexivity].
    destruct (proj1 Hiff eq_refl) as (m & Hin & Hm).
    now destruct (Hnone m Hin).
Qed.

(** ** Settings *)

(** X3: [loadSettings] defaults: detection is off only when the stored
    enabled value is exactly [false], highlighting is on only when the
    stored highlight value is exactly [true]; a missing key, another
    value or a failed read give enabled and no highlighting.  Nothing
    but the two flags changes. *)
Theorem loadSettings_defaults (result : option (gmap string jsvalue))
    (w : World) :
  let w' := loadSettings result w in
  (isExtensionEnabled w' = false <->
   exists stored, result = Some stored /\
                  stored !! STORAGE_KEY_ENABLED = Some (boolean false)) /\
  (highlightMatches w' = true <->
   exists stored, result = Some stored /\
                  stored !! STORAGE_KEY_HIGHLIGHT = Some (boolean true)) /\
  w' = set_highlightMatches (highlightMatches w')
         (set_isExtensionEnabled (isExtensionEnabled w') w).
Proof.
  destruct result as [stored|]; simpl.
  - split; [|split; [|reflexivity]].
    + destruct (stored !! STORAGE_KEY_ENABLED) as [[|[|]|]|] eqn:He; simpl;
        split; try discriminate; eauto;
        intros (s' & Hs & Hk); injection Hs as <-; congruence.
    + destruct (stored !! STORAGE_KEY_HIGHLIGHT) as [[|[|]|]|] eqn:He; simpl;
        split; try discriminate; eauto;
        intros (s' & Hs & Hk); injection Hs as <-; congruence.
  - split; [|split; [|reflexivity]];
      (split; [discriminate|intros (s' & Hs & _); discriminate]).
Qed.

(** X4: a storage change from an area other than [sync] and [local], or
    one that touches neither of the two keys, changes nothing. *)
Theorem foreign_storage_changes_are_ignored
    (changes : gmap string StorageChange) (area : string) (w : World) :
  (area <> "sync"%string /\ area <> "local"%string) \/
  (changes !! STORAGE_KEY_ENABLED = None /\
   changes !! STORAGE_KEY_HIGHLIGHT = None) ->
  onStorageChange changes area w = w.
Proof.
  unfold onStorageChange. intros [[Hs Hl]|[He Hh]].
  - apply String.eqb_neq in Hs, Hl. now rewrite Hs, Hl.
  - rewrite He, Hh. now destruct (negb _ && negb _).
Qed.

Lemma changes_of_lookup (items : gmap string jsvalue) (key : string) :
  changes_of items !! key = (fun v => {| newValue := v |}) <$> items !! key.
Proof. unfold changes_of. apply lookup_fmap. Qed.

Section SettingsFacts.
Context {host : LowerCase}.

(** X5: the popup and the content script agree.  After the popup's
    listener wrote a checkbox state, the stored settings load to that
    state in the popup and in [loadSettings], and the change event that
    the write delivers in the [sync] area sets the script's flag to it,
    leaving the other flag alone. *)
Theorem settings_round_trip (checked : bool) (store : gmap string jsvalue)
    (w : World) :
  let stored_e := storage_set (popup_enabled_items checked) store in
  let stored_h := storage_set (popup_highlight_items checked) store in
  enabledChecked (popup_load stored_e) = checked /\
  isExtensionEnabled (loadSettings (Some stored_e) w) = checked /\
  highlightChecked (popup_load stored_h) = checked /\
  highlightMatches (loadSettings (Some stored_h) w) = checked /\
  (let w' := onStorageChange (changes_of (popup_enabled_items checked))
                             "sync" w in
   isExtensionEnabled w' = checked /\
   highlightMatches w' = highlightMatches w) /\
  (let w' := onStorageChange (changes_of (popup_highlight_items checked))
                             "sync" w in
   highlightMatches w' = checked /\
   isExtensionEnabled w' = isExtensionEnabled w).
Proof.
  intros stored_e stored_h.
  assert (He : stored_e !! STORAGE_KEY_ENABLED = Some (boolean checked)).
  { subst stored_e. unfold storage_set, popup_enabled_items.
    apply lookup_union_Some_l, lookup_singleton_eq. }
  assert (Hh : stored_h !! STORAGE_KEY_HIGHLIGHT = Some (boolean checked)).
  { subst stored_h. unfold storage_set, popup_highlight_items.
    apply lookup_union_Some_l, lookup_singleton_eq. }
  unfold popup_load, loadSettings. simpl. rewrite He, Hh. simpl.
  split; [now destruct checked|]. split; [now destruct checked|].
  split; [now destruct checked|]. split; [now destruct checked|].
  unfold onStorageChange. simpl.
  rewrite !changes_of_lookup. unfold popup_enabled_items, popup_highlight_items.
  rewrite !lookup_singleton_eq.
  rewrite !lookup_singleton_ne by discriminate. simpl.
  unfold debouncedScan, setTimeout, clearTimeout, removeBanner,
    removeHighlights.
  destruct w as [st txt en hl url bn hi t ts nh cs]. simpl.
  split.
  - destruct checked; simpl; [destruct st|destruct bn]; simpl; auto.
  - destruct checked; simpl; [destruct st|]; simpl; auto.
Qed.

(** X6: what a scan that runs the matcher leaves behind.  With the
    extension enabled and a text other than the snapshot, the snapshot
    becomes the text, the banner is visible exactly when the matcher
    found a phrase, the first phrase goes to the highlighter exactly
    when highlighting is on, and no timeout is touched. *)
Theorem scan_outcome (doc : Document) (w : World) :
  isExtensionEnabled w = true ->
  getPageText doc <> lastScannedText w ->
  let text := getPageText doc in
  let matches := scanForRestrictions text in
  let w' := performScan doc w in
  lastScannedText w' = text /\
  banner_visible w' = (if matches is [] then false else true) /\
  (matches <> [] ->
   exists b, banner w' = Some b /\
             omap item_phrase (items b) = take 5 matches) /\
  highlighted w' =
    match matches with
    | [] => None
    | keyword :: _ =>
        if highlightMatches w then Some keyword else highlighted w
    end /\
  timers w' = timers w /\ scanTimeout w' = scanTimeout w.
Proof.
  intros Hon Hneq%str_eqb_neq text matches w'.
  subst w'. unfold performScan.
  destruct w as [st txt en hl url bn hi t ts nh cs]. simpl in *.
  subst en. simpl. rewrite Hneq. fold text. fold matches.
  destruct matches as [|keyword rest] eqn:Hm; simpl.
  - unfold removeBanner, removeHighlights, banner_visible. simpl.
    destruct bn; simpl; repeat split; intros H; now destruct H.
  - destruct (showBanner_items (keyword :: rest)
                (log_call (call_scanForRestrictions text)
                   (set_lastScannedText text
                      (log_call call_getPageText
                         (log_call call_performScan
                            {| scanTimeout := st; lastScannedText := txt;
                               isExtensionEnabled := true;
                               highlightMatches := hl; lastUrl := url;
                               banner := bn; highlighted := hi; now := t;
                               timers := ts; nextHandle := nh;
                               calls := cs |})))))
      as (b & Hb & Hvis & Hitems & _).
    unfold banner_visible.
    destruct hl; simpl.
    + unfold highlightMatchedText, removeHighlights. simpl.
      simpl in Hb. rewrite Hb. simpl in Hitems.
      repeat split; eauto.
    + simpl in Hb. rewrite Hb. simpl in Hitems. repeat split; eauto.
Qed.

End SettingsFacts.

(** ** The single timer slot *)

Lemma quiet_step_refl (w : World) : quiet_step w w.
Proof. now repeat split. Qed.

Lemma quiet_step_trans (w1 w2 w3 : World) :
  quiet_step w1 w2 -> quiet_step w2 w3 -> quiet_step w1 w3.
Proof.
  intros (Hs1 & Hc1 & Hn1) (Hs2 & Hc2 & Hn2).
  repeat split; [auto|congruence|congruence].
Qed.

Lemma quiet_debouncedScan (w : World) : quiet_step w (debouncedScan w).
Proof.
  unfold quiet_step.
  destruct w as [st txt en hl url bn hi t ts nh cs].
  unfold single_slot, debouncedScan, setTimeout, clearTimeout, scans. simpl.
  destruct st as [h|]; simpl.
  - repeat split.
    + destruct ts as [|[h' d] [|? ?]]; simpl; try contradiction.
      * intros _. reflexivity.
      * intros Hs. injection Hs as ->.
        rewrite filter_cons_False by (simpl; auto). now rewrite filter_nil.
    + rewrite !omap_app. simpl. now rewrite !app_nil_r.
  - repeat split.
    + destruct ts as [|[h' d] [|? ?]]; simpl; try contradiction;
        [reflexivity|discriminate].
    + rewrite !omap_app. simpl. now rewrite !app_nil_r.
Qed.

Lemma quiet_removeHighlights (w : World) : quiet_step w (removeHighlights w).
Proof.
  unfold quiet_step, removeHighlights, single_slot, scans.
  destruct w. simpl. rewrite omap_app. simpl. now rewrite app_nil_r.
Qed.

Lemma quiet_removeBanner (w : World) : quiet_step w (removeBanner w).
Proof.
  unfold quiet_step, removeBanner, removeHighlights, single_slot, scans.
  destruct w as [st txt en hl url bn hi t ts nh cs]. simpl.
  destruct bn; simpl; rewrite !omap_app; simpl; now rewrite !app_nil_r.
Qed.

Lemma quiet_onStorageChange changes area (w : World) :
  quiet_step w (onStorageChange changes area w).
Proof.
  unfold onStorageChange.
  destruct (negb _ && negb _); [apply quiet_step_refl|].
  set (wa := match changes !! STORAGE_KEY_ENABLED with
             | Some change =>
                 let w1 :=
                   set_isExtensionEnabled (negb (is_false (newValue change))) w
                 in
                 if negb (isExtensionEnabled w1) then removeBanner w1
                 else debouncedScan w1
             | None => w
             end).
  apply quiet_step_trans with (w2 := wa).
  - subst wa. destruct (changes !! STORAGE_KEY_ENABLED) as [c|];
      [|apply quiet_step_refl].
    eapply quiet_step_trans with
      (w2 := set_isExtensionEnabled (negb (is_false (newValue c))) w);
      [now repeat split|].
    cbv zeta.
    match goal with |- context [if ?b then _ else _] => destruct b end;
      [apply quiet_removeBanner|apply quiet_debouncedScan].
  - destruct (changes !! STORAGE_KEY_HIGHLIGHT) as [c|];
      [|apply quiet_step_refl].
    match goal with |- quiet_step ?w0 _ =>
      eapply quiet_step_trans with
        (w2 := set_highlightMatches (is_true (newValue c)) w0);
        [now repeat split|]
    end.
    match goal with |- context [if ?b then _ else _] => destruct b end;
      [apply quiet_debouncedScan|apply quiet_removeHighlights].
Qed.

(** No event runs a scan by itself or moves the clock, and every event
    keeps the single slot. *)
Lemma quiet_dispatch (e : event) (w : World) : quiet_step w (dispatch e w).
Proof.
  destruct e as [|mutations| |href|changes area]; simpl.
  - apply quiet_debouncedScan.
  - unfold onMutations. destruct (hasRelevantChange mutations);
      [apply quiet_debouncedScan|apply quiet_step_refl].
  - unfold onPopState.
    eapply quiet_step_trans with (w2 := set_lastScannedText [] w);
      [now repeat split|apply quiet_debouncedScan].
  - unfold pollUrl. destruct (negb _); [|apply quiet_step_refl].
    eapply quiet_step_trans
      with (w2 := set_lastScannedText [] (set_lastUrl href w));
      [now repeat split|apply quiet_debouncedScan].
  - apply quiet_onStorageChange.
Qed.

Lemma single_slot_length (w : World) :
  single_slot w -> (length (timers w) <= 1)%nat.
Proof.
  unfold single_slot. destruct (timers w) as [|[h d] [|? ?]]; simpl;
    intros; first [lia|contradiction].
Qed.

Section SlotFacts.
Context {host : LowerCase}.

(** Waiting fires what is due: the slot stays single, and each timeout
    that leaves the queue is one run of [performScan]. *)
Lemma advance_single_slot (page : Page) (t : nat) (w : World) :
  single_slot w ->
  single_slot (advance page t w) /\
  (length (scans (advance page t w)) + length (timers (advance page t w))
   = length (scans w) + length (timers w))%nat.
Proof.
  intros Hslot. unfold advance, single_slot in *.
  destruct (timers w) as [|[h d] [|? ?]] eqn:Hts; try contradiction.
  - simpl. rewrite Hts. auto.
  - simpl. destruct (d <=? t)%nat.
    + set (w1 := set_now _ (set_timers [] w)).
      destruct (performScan_frame (document_at page (d `max` now w)) w1)
        as (Ht & _ & _ & _ & Hs).
      simpl timers. rewrite Ht. simpl. split; [exact I|].
      unfold scans at 1. simpl calls.
      fold (scans (performScan (document_at page (d `max` now w)) w1)).
      rewrite Hs, length_app. simpl. unfold scans. simpl. lia.
    + simpl. rewrite Hts. auto.
Qed.

(** X7: over any timeline of events, arriving at any times, at most
    one timeout is pending in every state the script passes through,
    and [performScan] runs at most once per event (plus once for a
    timeout that was pending at the start). *)
Theorem one_slot_one_scan_per_event (page : Page)
    (timeline : list (nat * event)) (t_end : nat) (w : World) :
  single_slot w ->
  Forall (fun w' => (length (timers w') <= 1)%nat)
         (history page timeline t_end w) /\
  (length (scans (run page timeline t_end w))
   <= length (scans w) + length (timers w) + length timeline)%nat.
Proof.
  revert w. induction timeline as [|te timeline IH]; intros w Hslot.
  - unfold run. simpl.
    destruct (advance_single_slot page t_end w Hslot) as [Hs Hcount].
    split; [|lia].
    constructor; [now apply single_slot_length|].
    constructor; [now apply single_slot_length|constructor].
  - rewrite run_cons. simpl history.
    destruct (advance_single_slot page te.1 w Hslot) as [Hs Hcount].
    destruct (quiet_dispatch te.2 (advance page te.1 w)) as (Hq & Hsc & _).
    fold (deliver page te w) in Hq, Hsc.
    specialize (Hq Hs).
    destruct (IH _ Hq) as [Hh Hbound]. split.
    + constructor; [now apply single_slot_length|].
      constructor; [now apply single_slot_length|exact Hh].
    + apply single_slot_length in Hq. rewrite Hsc in Hbound.
      simpl length. lia.
Qed.

End SlotFacts.

Section ToggleFacts.
Context {host : LowerCase}.

Lemma performScan_skip (doc : Document) (w : World) :
  isExtensionEnabled w = true ->
  getPageText doc = lastScannedText w ->
  performScan doc w = skipped_scan w.
Proof.
  intros Hon Hsame. unfold performScan, skipped_scan.
  destruct w as [st txt en hl url bn hi t ts nh cs]. simpl in *.
  subst en txt. simpl. unfold str_eqb.
  now rewrite bool_decide_eq_true_2 by reflexivity.
Qed.

(** A storage change that leaves the extension enabled and calls
    [debouncedScan] arms the timeout, and keeps snapshot and banner. *)
Lemma onStorageChange_turning_on changes area (w : World) :
  single_slot w ->
  area = "sync"%string \/ area = "local"%string ->
  (exists c, changes !! STORAGE_KEY_ENABLED = Some c /\
             newValue c <> boolean false) \/
  (changes !! STORAGE_KEY_ENABLED = None /\ isExtensionEnabled w = true /\
   exists c, changes !! STORAGE_KEY_HIGHLIGHT = Some c /\
             newValue c = boolean true) ->
  let w1 := onStorageChange changes area w in
  isExtensionEnabled w1 = true /\ armed w1 /\ now w1 = now w /\
  lastScannedText w1 = lastScannedText w /\ banner w1 = banner w.
Proof.
  intros Hslot Harea Hturn w1. subst w1. unfold onStorageChange.
  replace (negb (area =? "sync")%string && negb (area =? "local")%string)
    with false by (destruct Harea as [-> | ->]; reflexivity).
  clear Harea.
  assert (Harm : forall w0, single_slot w0 ->
            armed (debouncedScan w0) /\
            isExtensionEnabled (debouncedScan w0) = isExtensionEnabled w0 /\
            now (debouncedScan w0) = now w0 /\
            lastScannedText (debouncedScan w0) = lastScannedText w0 /\
            banner (debouncedScan w0) = banner w0).
  { intros w0 H0. split; [now apply debouncedScan_armed|].
    destruct (debouncedScan_arms w0 H0)
      as (_ & _ & Hn & _ & Ht & He & _ & Hb & _). auto. }
  destruct Hturn as [(ce & -> & Hce)|(-> & Hon & ch & -> & Hch)].
  - assert (He : negb (is_false (newValue ce)) = true)
      by (destruct (newValue ce) as [|[|]|]; simpl; congruence).
    rewrite He. simpl negb. cbv iota.
    destruct (Harm (set_isExtensionEnabled true w) Hslot)
      as (Ha & Hen & Hn & Ht & Hb).
    cbn [isExtensionEnabled now lastScannedText banner set_isExtensionEnabled set_highlightMatches] in Hen, Hn, Ht, Hb.
    destruct (changes !! STORAGE_KEY_HIGHLIGHT) as [ch|];
      [|split; [|split; [|split; [|split]]]; assumption].
    cbn [highlightMatches set_highlightMatches].
    destruct (is_true (newValue ch)).
    + destruct (Harm (set_highlightMatches true
                        (debouncedScan (set_isExtensionEnabled true w))))
        as (Ha' & Hen' & Hn' & Ht' & Hb').
      { now apply armed_single_slot in Ha. }
      cbn [isExtensionEnabled now lastScannedText banner set_isExtensionEnabled set_highlightMatches] in Hen', Hn', Ht', Hb'.
      split; [|split; [|split; [|split]]]; first [exact Ha'|congruence].
    + unfold removeHighlights.
      cbn [isExtensionEnabled now lastScannedText banner set_highlighted
           set_highlightMatches log_call].
      split; [|split; [|split; [|split]]]; try congruence.
      destruct Ha as (h & Hts & Hst). exists h.
      cbn [timers scanTimeout now set_highlighted set_highlightMatches
           log_call].
      now rewrite Hts, Hst.
  - rewrite Hch. simpl is_true. cbn [highlightMatches set_highlightMatches].
    destruct (Harm (set_highlightMatches true w) Hslot)
      as (Ha & Hen & Hn & Ht & Hb).
    cbn [isExtensionEnabled now lastScannedText banner set_isExtensionEnabled set_highlightMatches] in Hen, Hn, Ht, Hb.
    split; [|split; [|split; [|split]]]; first [exact Ha|congruence].
Qed.

(** X8: switching detection or highlighting on does not force a scan.
    The storage change arms the timeout but leaves the snapshot alone,
    so when the timeout fires and the page text still equals the
    snapshot, the scan is skipped: the banner stays as it was (hidden
    after a switch off and on) and nothing is handed to the
    highlighter. *)
Theorem switching_on_does_not_force_a_scan (page : Page)
    (changes : gmap string StorageChange) (area : string) (w : World) :
  single_slot w ->
  area = "sync"%string \/ area = "local"%string ->
  (exists c, changes !! STORAGE_KEY_ENABLED = Some c /\
             newValue c <> boolean false) \/
  (changes !! STORAGE_KEY_ENABLED = None /\ isExtensionEnabled w = true /\
   exists c, changes !! STORAGE_KEY_HIGHLIGHT = Some c /\
             newValue c = boolean true) ->
  let w1 := onStorageChange changes area w in
  let t := (now w + SCAN_DEBOUNCE_MS)%nat in
  getPageText (document_at page t) = lastScannedText w ->
  let w2 := advance page t w1 in
  isExtensionEnabled w2 = true /\
  banner w2 = banner w /\
  highlighted w2 = highlighted w1 /\
  lastScannedText w2 = lastScannedText w /\
  calls_since w1 w2 = [(t, call_performScan); (t, call_getPageText)].
Proof.
  intros Hslot Harea Hturn w1 t Htext w2.
  destruct (onStorageChange_turning_on changes area w Hslot Harea Hturn)
    as (Hen & (h & Hts & Hst) & Hn & Hsnap & Hb).
  fold w1 in Hen, Hts, Hst, Hn, Hsnap, Hb.
  rewrite Hn in Hts. fold t in Hts.
  subst w2. rewrite (advance_fires page t w1 h t Hts) by (subst t; lia).
  rewrite performScan_skip.
  - unfold skipped_scan. simpl. repeat split; try assumption.
    unfold calls_since. simpl.
    rewrite <- app_assoc. now rewrite drop_app_length.
  - simpl. exact Hen.
  - simpl. now rewrite Hsnap.
Qed.

(** X9: each restriction pattern contributes at most one phrase, so
    the result has at most 21 entries. *)
Theorem at_most_one_phrase_per_pattern (text : jsstring) :
  (length (scanForRestrictions text) <= 21)%nat.
Proof.
  rewrite scanForRestrictions_eq.
  destruct (negb (truthy text)); [simpl; lia|].
  destruct (existsb _ EXCLUSION_PATTERNS); [simpl; lia|].
  assert (Hset : forall l : list jsstring,
            (length (Set_of l) <= length l)%nat).
  { induction l as [|x l IH] using rev_ind; [simpl; lia|].
    rewrite Set_of_snoc, length_app. unfold Set_add.
    case_bool_decide; [|rewrite length_app]; simpl; lia. }
  assert (Homap : forall ps : list regex,
            (length (omap (phrase_of text) ps) <= length ps)%nat).
  { induction ps as [|p ps IH]; [simpl; lia|].
    change (omap (phrase_of text) (p :: ps))
      with (match phrase_of text p with
            | Some x => x :: omap (phrase_of text) ps
            | None => omap (phrase_of text) ps
            end).
    destruct (phrase_of text p); simpl; lia. }
  etransitivity; [apply Hset|].
  etransitivity; [apply Homap|]. reflexivity.
Qed.

End ToggleFacts.

(** ** Substring search, both ways *)

Lemma indexOf_from_spec (i : nat) (s k : jsstring) (n : nat) :
  indexOf_from i s k = Some n ->
  exists pre post, s = pre ++ k ++ post /\ n = (i + length pre)%nat.
Proof.
  revert i. induction s as [|u s IH]; intros i H.
  - simpl in H. destruct (is_prefix_of k []) eqn:Hp; [|discriminate].
    injection H as <-. exists [], (drop (length k) []).
    split; [now apply is_prefix_of_spec|simpl; lia].
  - simpl in H. destruct (is_prefix_of k (u :: s)) eqn:Hp.
    + injection H as <-. exists [], (drop (length k) (u :: s)).
      split; [now apply is_prefix_of_spec|simpl; lia].
    + apply IH in H as (pre & post & -> & ->).
      exists (u :: pre), post. split; [reflexivity|simpl; lia].
Qed.

Lemma is_prefix_of_app (k post : jsstring) : is_prefix_of k (k ++ post) = true.
Proof.
  unfold is_prefix_of. apply bool_decide_eq_true. apply take_app_length.
Qed.

Lemma indexOf_from_complete (pre k post : jsstring) (i : nat) :
  exists n, indexOf_from i (pre ++ k ++ post) k = Some n.
Proof.
  revert i. induction pre as [|u pre IH]; intros i.
  - simpl app. destruct (k ++ post) as [|v rest] eqn:Heq.
    + simpl. rewrite <- Heq, is_prefix_of_app. eauto.
    + simpl. rewrite <- Heq, is_prefix_of_app. eauto.
  - simpl. destruct (is_prefix_of k (u :: pre ++ k ++ post)); eauto.
Qed.

Lemma includes_iff (s k : jsstring) : includes s k = true <-> occurs_in k s.
Proof.
  split; [apply includes_occurs|].
  intros (pre & post & ->). unfold includes, indexOf.
  now destruct (indexOf_from_complete pre k post 0) as [n ->].
Qed.

Lemma Set_of_NoDup_id (l : list jsstring) : NoDup l -> Set_of l = l.
Proof.
  induction l as [|x l IH] using rev_ind; [reflexivity|].
  intros [Hl [Hx _]]%NoDup_app.
  rewrite Set_of_snoc, (IH Hl). unfold Set_add.
  rewrite bool_decide_eq_false_2; [reflexivity|].
  intros Hin. apply (Hx x Hin). constructor.
Qed.

Lemma keywords_NoDup : NoDup Keywords.RESTRICTION_KEYWORDS.
Proof.
  apply (proj1 (bool_decide_eq_true (NoDup Keywords.RESTRICTION_KEYWORDS))).
  vm_compute. reflexivity.
Qed.

Section KeywordFacts.
Context {host : LowerCase}.

(** X10: the keyword revision reports, for a non-empty text, exactly
    the keywords of the table that occur in the lower-cased text, each
    once and in table order. *)
Theorem keyword_scan_exact (text : jsstring) :
  text <> [] ->
  let result := Keywords.scanForRestrictions text in
  NoDup result /\
  result `sublist_of` Keywords.RESTRICTION_KEYWORDS /\
  (forall keyword,
     keyword ∈ result <->
     keyword ∈ Keywords.RESTRICTION_KEYWORDS /\
     occurs_in keyword (toLowerCase text)).
Proof.
  intros Hne result. subst result. unfold Keywords.scanForRestrictions.
  destruct text as [|u text]; [contradiction|]. simpl truthy. simpl negb.
  cbv iota zeta.
  rewrite Set_of_NoDup_id by (apply NoDup_filter, keywords_NoDup).
  split; [apply NoDup_filter, keywords_NoDup|].
  split; [apply sublist_filter|].
  intros keyword. rewrite list_elem_of_filter, includes_iff. tauto.
Qed.

End KeywordFacts.

(** ** Letter case *)

Lemma letter_not_space (u : code_unit) :
  65 <= u <= 122 -> is_space u = false.
Proof.
  intros Hu. destruct (is_space u) eqn:Hs; [exfalso|reflexivity].
  unfold is_space in Hs.
  repeat (apply orb_true_iff in Hs as [Hs|Hs]);
    try apply between_spec in Hs; try apply N.eqb_eq in Hs; lia.
Qed.

Lemma same_canonical (u v : code_unit) :
  Canonicalize u = Canonicalize v ->
  u = v \/
  (97 <= u <= 122 /\ v = u - 32) \/
  (97 <= v <= 122 /\ u = v - 32).
Proof.
  unfold Canonicalize, upper_unit.
  destruct (between 97 122 u) eqn:Eu; destruct (between 97 122 v) eqn:Ev;
    try apply between_spec in Eu; try apply between_spec in Ev; intros H.
  - left. lia.
  - right. left. split; [exact Eu|now symmetry].
  - right. right. split; [exact Ev|exact H].
  - now left.
Qed.

Lemma same_canonical_space (u v : code_unit) :
  Canonicalize u = Canonicalize v -> is_space u = is_space v.
Proof.
  intros [->|[[Hu ->]|[Hv ->]]]%same_canonical; [reflexivity| |];
    rewrite !letter_not_space by lia; reflexivity.
Qed.

Lemma same_canonical_word (u v : code_unit) :
  Canonicalize u = Canonicalize v -> is_word_char u = is_word_char v.
Proof.
  assert (Hletter : forall x, 97 <= x <= 122 ->
            is_word_char x = true /\ is_word_char (x - 32) = true).
  { intros x Hx. unfold is_word_char. split.
    - replace (between 97 122 x) with true; [reflexivity|].
      symmetry. now apply between_spec.
    - replace (between 65 90 (x - 32)) with true;
        [now rewrite orb_true_r|].
      symmetry. apply between_spec. lia. }
  intros [->|[[Hu ->]|[Hv ->]]]%same_canonical; [reflexivity| |].
  - destruct (Hletter u Hu) as [-> ->]. reflexivity.
  - destruct (Hletter v Hv) as [-> ->]. reflexivity.
Qed.

Lemma same_canonical_lower (u v : code_unit) :
  Canonicalize u = Canonicalize v -> lower_unit u = lower_unit v.
Proof.
  assert (Hletter : forall x, 97 <= x <= 122 ->
            lower_unit x = x /\ lower_unit (x - 32) = x).
  { intros x Hx. unfold lower_unit. split.
    - replace (between 65 90 x) with false; [reflexivity|].
      symmetry. apply not_true_is_false. rewrite between_spec. lia.
    - replace (between 65 90 (x - 32)) with true; [lia|].
      symmetry. apply between_spec. lia. }
  intros [->|[[Hu ->]|[Hv ->]]]%same_canonical; [reflexivity| |].
  - destruct (Hletter u Hu) as [-> ->]. reflexivity.
  - destruct (Hletter v Hv) as [-> ->]. reflexivity.
Qed.

Lemma same_canonical_match (c : charset) (u v : code_unit) :
  Canonicalize u = Canonicalize v -> cs_match c u = cs_match c v.
Proof.
  intros H. induction c as [a| |lo hi|a IHa b IHb]; simpl.
  - now rewrite H.
  - now apply same_canonical_space.
  - now rewrite H.
  - now rewrite IHa, IHb.
Qed.

Lemma same_letters_boundary (b b' a a' : jsstring) :
  same_letters b b' -> same_letters a a' ->
  is_boundary b a = is_boundary b' a'.
Proof.
  assert (Hhead : forall l l', same_letters l l' ->
            head_is_word l = head_is_word l').
  { intros l l' [|u v ? ? Huv _]; [reflexivity|].
    simpl. now apply same_canonical_word. }
  intros Hb Ha. unfold is_boundary.
  now rewrite (Hhead _ _ Hb), (Hhead _ _ Ha).
Qed.

Lemma same_letters_lower (s s' : jsstring) :
  same_letters s s' -> map lower_unit s = map lower_unit s'.
Proof.
  induction 1 as [|u v s s' Huv _ IH]; [reflexivity|].
  simpl. now rewrite (same_canonical_lower u v Huv), IH.
Qed.

Lemma or_else_same (x x' y y' : option cursor) :
  option_Forall2 same_cursor x x' -> option_Forall2 same_cursor y y' ->
  option_Forall2 same_cursor (or_else x y) (or_else x' y').
Proof. intros [? ? ?|] ?; simpl; [now constructor|assumption]. Qed.

Lemma repeat_set_same (c : charset) (a a' : jsstring) :
  same_letters a a' ->
  forall min max b b' k k',
    same_letters b b' -> same_continuation k k' ->
    option_Forall2 same_cursor (repeat_set c min max b a k)
                               (repeat_set c min max b' a' k').
Proof.
  induction 1 as [|u v a a' Huv Ha IH]; intros min max b b' k k' Hb Hk.
  - assert (Hnil : same_letters [] []) by constructor.
    destruct max as [[|n]|], min; simpl;
      first [apply Hk; assumption | constructor
            | apply or_else_same; [constructor|apply Hk; assumption]].
  - assert (Hcons : same_letters (u :: a) (v :: a')) by now constructor.
    assert (Hstep : forall min' max',
      option_Forall2 same_cursor
        (if cs_match c u then repeat_set c min' max' (u :: b) a k else None)
        (if cs_match c v then repeat_set c min' max' (v :: b') a' k'
         else None)).
    { intros min' max'. rewrite (same_canonical_match c u v Huv).
      destruct (cs_match c v); [|constructor].
      apply IH; [now constructor|exact Hk]. }
    destruct max as [[|n]|]; simpl.
    + now apply Hk.
    + destruct min; [apply or_else_same; [apply Hstep|now apply Hk]
                    |apply Hstep].
    + destruct min; [apply or_else_same; [apply Hstep|now apply Hk]
                    |apply Hstep].
Qed.

(** The matcher cannot tell two texts with the same letters apart. *)
Lemma matcher_same (r : regex) :
  forall b b' a a' k k',
    same_letters b b' -> same_letters a a' -> same_continuation k k' ->
    option_Forall2 same_cursor (matcher r b a k) (matcher r b' a' k').
Proof.
  induction r as [|c| |r1 IH1 r2 IH2|r1 IH1 r2 IH2|r1 IH1|c min max];
    intros b b' a a' k k' Hb Ha Hk; simpl.
  - now apply Hk.
  - destruct Ha as [|u v a a' Huv Ha]; [constructor|].
    rewrite (same_canonical_match c u v Huv).
    destruct (cs_match c v); [|constructor].
    apply Hk; [now constructor|exact Ha].
  - rewrite (same_letters_boundary b b' a a' Hb Ha).
    destruct (is_boundary b' a'); [now apply Hk|constructor].
  - apply IH1; [exact Hb|exact Ha|].
    intros b1 b1' a1 a1' Hb1 Ha1. now apply IH2.
  - apply or_else_same; [now apply IH1|now apply IH2].
  - apply or_else_same; [|now apply Hk].
    apply IH1; [exact Hb|exact Ha|].
    intros b1 b1' a1 a1' Hb1 Ha1.
    rewrite (Forall2_length _ _ _ Ha1), (Forall2_length _ _ _ Ha).
    destruct (length a1' =? length a')%nat; [constructor|now apply Hk].
  - now apply repeat_set_same.
Qed.

Lemma exec_from_same (r : regex) (a a' : jsstring) :
  same_letters a a' ->
  forall i b b',
    same_letters b b' ->
    option_Forall2 same_match (exec_from r i b a) (exec_from r i b' a').
Proof.
  assert (Haccept : same_continuation accept accept).
  { intros b b' a0 a0' Hb Ha0. constructor. now split. }
  assert (Hhit : forall i b b' a0 a0',
    same_letters b b' -> same_letters a0 a0' ->
    forall e e', matcher r b a0 accept = Some e ->
                 matcher r b' a0' accept = Some e' ->
                 same_cursor e e' ->
    same_match
      {| index := i; matched := take (length a0 - length e.2) a0 |}
      {| index := i; matched := take (length a0' - length e'.2) a0' |}).
  { intros i b b' a0 a0' Hb Ha0 e e' _ _ [_ He]. split; [reflexivity|].
    simpl. rewrite (Forall2_length _ _ _ Ha0), (Forall2_length _ _ _ He).
    now apply Forall2_take. }
  induction 1 as [|u v a a' Huv Ha IH]; intros i b b' Hb.
  - rewrite (exec_from_unfold r i b []), (exec_from_unfold r i b' []).
    pose proof (matcher_same r b b' [] [] accept accept Hb
                  ltac:(constructor) Haccept) as Hm.
    destruct Hm as [[b1 rest] [b1' rest'] He|]; [|constructor].
    constructor. destruct He as [_ He]. simpl in He. split; [reflexivity|].
    simpl. constructor.
  - rewrite (exec_from_unfold r i b (u :: a)),
      (exec_from_unfold r i b' (v :: a')).
    assert (Hcons : same_letters (u :: a) (v :: a')) by now constructor.
    pose proof (matcher_same r b b' _ _ accept accept Hb Hcons Haccept) as Hm.
    destruct (matcher r b (u :: a) accept) as [[b1 rest]|] eqn:E1;
      destruct (matcher r b' (v :: a') accept) as [[b1' rest']|] eqn:E2;
      inversion Hm as [? ? He|]; subst.
    + constructor.
      apply (Hhit i b b' (u :: a) (v :: a') Hb Hcons _ _ E1 E2 He).
    + apply IH. now constructor.
Qed.

Lemma exec_same (r : regex) (text text' : jsstring) :
  same_letters text text' ->
  option_Forall2 same_match (exec r text) (exec r text').
Proof. intros H. apply exec_from_same; [exact H|constructor]. Qed.

Lemma test_same (r : regex) (text text' : jsstring) :
  same_letters text text' -> test r text = test r text'.
Proof.
  intros H. unfold test.
  now destruct (exec_same r text text' H).
Qed.

Section CaseFacts.
Context {host : LowerCase} {laws : LowerCaseLaws host}.

(** X11: the pattern revision ignores the case of Basic Latin letters:
    two texts that differ only there (a posting and its lower-cased or
    upper-cased form) give the same result. *)
Theorem scan_ignores_letter_case (text text' : jsstring) :
  same_letters text text' ->
  scanForRestrictions text = scanForRestrictions text'.
Proof.
  intros H. rewrite !scanForRestrictions_eq.
  replace (truthy text') with (truthy text) by now destruct H.
  destruct (negb (truthy text)); [reflexivity|].
  replace (existsb (fun p => test p text') EXCLUSION_PATTERNS)
    with (existsb (fun p => test p text) EXCLUSION_PATTERNS).
  2:{ induction EXCLUSION_PATTERNS as [|p ps IH]; [reflexivity|].
      simpl. now rewrite IH, (test_same p text text' H). }
  destruct (existsb _ EXCLUSION_PATTERNS); [reflexivity|].
  f_equal.
  assert (Hphrase : forall p, p ∈ RESTRICTION_PATTERNS ->
            phrase_of text p = phrase_of text' p).
  { intros p Hp. unfold phrase_of.
    pose proof (exec_same p text text' H) as Hm.
    destruct (exec p text) as [r|] eqn:E; destruct (exec p text') as [r'|] eqn:E';
      inversion Hm as [? ? [_ Hsame]|]; subst; [|reflexivity].
    simpl. f_equal.
    rewrite (lower_plain _ (exec_plain p text r
                              (restriction_patterns_plain p Hp) E)).
    rewrite (lower_plain _ (exec_plain p text' r'
                              (restriction_patterns_plain p Hp) E')).
    now apply same_letters_lower. }
  revert Hphrase. generalize RESTRICTION_PATTERNS as ps.
  induction ps as [|p ps IH]; intros Hphrase; [reflexivity|].
  change (omap (phrase_of text) (p :: ps))
    with (match phrase_of text p with
          | Some x => x :: omap (phrase_of text) ps
          | None => omap (phrase_of text) ps
          end).
  change (omap (phrase_of text') (p :: ps))
    with (match phrase_of text' p with
          | Some x => x :: omap (phrase_of text') ps
          | None => omap (phrase_of text') ps
          end).
  rewrite (Hphrase p) by constructor.
  rewrite IH; [reflexivity|].
  intros q Hq. apply Hphrase. now constructor.
Qed.

End CaseFacts.

(** ** The highlighter's target *)

Lemma slice_occurs (s : jsstring) (from to : nat) : occurs_in (slice s from to) s.
Proof.
  unfold slice. exists (take from s), (drop (to - from) (drop from s)).
  now rewrite take_drop, take_drop.
Qed.

Lemma omap_all_None {A B} (f : A -> option B) (l : list A) :
  (forall x, x ∈ l -> f x = None) -> omap f l = [].
Proof.
  induction l as [|x l IH]; intros H; [reflexivity|].
  change (omap f (x :: l))
    with (match f x with Some y => y :: omap f l | None => omap f l end).
  rewrite (H x) by constructor. apply IH.
  intros y Hy. apply H. now constructor.
Qed.

Section HighlightFacts.
Context {host : LowerCase} {laws : LowerCaseLaws host}.

Lemma highlight_in_spec (keyword content span : jsstring) :
  highlight_in keyword content = Some span ->
  occurs_in span content /\
  occurs_in keyword (toLowerCase content) /\
  (forallb plain_unit content = true -> map lower_unit span = keyword).
Proof.
  unfold highlight_in, indexOf.
  destruct (indexOf_from 0 (toLowerCase content) keyword) as [idx|] eqn:Hidx;
    [|discriminate].
  intros [= <-]. apply indexOf_from_spec in Hidx as (pre & post & Hlow & ->).
  split; [apply slice_occurs|]. split; [now exists pre, post|].
  intros Hplain. rewrite (lower_plain _ Hplain) in Hlow.
  assert (Hlen : length content
                 = (length pre + (length keyword + length post))%nat).
  { rewrite <- (length_map lower_unit content), Hlow, !length_app.
    reflexivity. }
  simpl Nat.add. rewrite Hlen, Nat.min_l by lia. unfold slice.
  replace (length pre + length keyword - length pre)%nat
    with (length keyword) by lia.
  rewrite <- firstn_map, <- skipn_map, Hlow.
  now rewrite drop_app_length, take_app_length.
Qed.

(** X12: what [highlightMatchedText] wraps.  The wrapped text lies in a
    text node whose parent is not a script, style or noscript element,
    its lower-cased content holds the first matched phrase, and for
    content of Basic Latin and white space the wrapped text is that
    phrase up to letter case.  When no such text node holds the phrase
    (it spans several nodes, say), nothing is wrapped. *)
Theorem highlight_target_spec (b : Body) (keyword : jsstring)
    (rest : list jsstring) :
  (forall span,
     highlight_target b (keyword :: rest) = Some span ->
     exists child parent content,
       child ∈ bodyChildNodes b /\
       text_below (bodyTagName b) child parent content /\
       (toLowerCase parent ∉ [js "script"; js "style"; js "noscript"]) /\
       occurs_in span content /\
       occurs_in keyword (toLowerCase content) /\
       (forallb plain_unit content = true ->
        map lower_unit span = keyword)) /\
  ((forall child parent content,
      child ∈ bodyChildNodes b ->
      text_below (bodyTagName b) child parent content ->
      (toLowerCase parent ∉ [js "script"; js "style"; js "noscript"]) ->
      ~ occurs_in keyword (toLowerCase content)) ->
   highlight_target b (keyword :: rest) = None).
Proof.
  unfold highlight_target. split.
  - intros span Hhead. apply head_Some_elem_of in Hhead.
    apply list_elem_of_omap in Hhead as (content & Hin & Hspan).
    apply list_elem_of_In, in_flat_map in Hin as (child & Hchild & Hin).
    apply list_elem_of_In in Hchild, Hin.
    apply accepted_text_spec in Hin as (parent & Hbelow & Hskip).
    apply is_skipped_container_spec in Hskip.
    destruct (highlight_in_spec keyword content span Hspan)
      as (Hocc & Hkey & Hcase).
    now exists child, parent, content.
  - intros Hnone. rewrite omap_all_None; [reflexivity|].
    intros content Hin.
    apply list_elem_of_In, in_flat_map in Hin as (child & Hchild & Hin).
    apply list_elem_of_In in Hchild, Hin.
    apply accepted_text_spec in Hin as (parent & Hbelow & Hskip).
    apply is_skipped_container_spec in Hskip.
    unfold highlight_in.
    destruct (indexOf (toLowerCase content) keyword) as [idx|] eqn:Hidx;
      [|reflexivity].
    exfalso. apply (Hnone child parent content Hchild Hbelow Hskip).
    apply includes_iff. unfold includes. now rewrite Hidx.
Qed.

End HighlightFacts.

(** ** URL polling and start-up *)

(** X13: a URL change is acted on once.  After a poll tick, the URL it
    saw is the last observed one, and a further tick with the same URL
    changes nothing. *)
Theorem url_change_is_seen_once (href : jsstring) (w : World) :
  lastUrl (pollUrl href w) = href /\
  pollUrl href (pollUrl href w) = pollUrl href w.
Proof.
  assert (Hurl : lastUrl (pollUrl href w) = href).
  { unfold pollUrl. destruct (str_eqb href (lastUrl w)) eqn:Heq; simpl.
    - symmetry. now apply str_eqb_eq.
    - unfold debouncedScan, setTimeout, clearTimeout.
      destruct w as [st txt en hl url bn hi t ts nh cs]. simpl.
      now destruct st. }
  split; [exact Hurl|].
  unfold pollUrl at 1. rewrite Hurl.
  replace (str_eqb href href) with true; [reflexivity|].
  symmetry. now apply str_eqb_eq.
Qed.

Section StartupFacts.
Context {host : LowerCase}.



End StartupFacts.

(** ** The further properties at work *)

(** An attribute change and a removal schedule nothing. *)
Lemma only_relevant_mutations_schedule_witness :
  let cosmetic := [{| type := "attributes"; addedNodes := 0 |};
                   {| type := "childList"; addedNodes := 0 |}] in
  hasRelevantChange cosmetic = false /\ onMutations cosmetic loaded = loaded.
Proof.
  intros cosmetic. split; [reflexivity|].
  apply (only_relevant_mutations_schedule cosmetic loaded).
  intros m Hin. apply list_elem_of_In in Hin. simpl in Hin.
  destruct Hin as [<-|[<-|[]]]; unfold relevant; simpl;
    intros [[H1 H2]|H]; first [discriminate|lia].
Defined.

(** A change of the enabled key in the managed area is not acted on. *)
Lemma foreign_storage_changes_are_ignored_witness :
  let shown := showBanner [js "no sponsorship"] loaded in
  let changes : gmap string StorageChange :=
    {[ STORAGE_KEY_ENABLED := {| newValue := boolean false |} ]} in
  onStorageChange changes "managed" shown = shown.
Proof.
  intros shown changes.
  apply (foreign_storage_changes_are_ignored changes "managed"%string shown).
  left. split; discriminate.
Defined.

(** The first scan of the posting sets the snapshot to its text. *)
Lemma scan_outcome_witness :
  let w' := @performScan BasicLatin posting loaded in
  lastScannedText w' = @getPageText BasicLatin posting /\ timers w' = [].
Proof.
  intros w'.
  destruct (@scan_outcome BasicLatin posting loaded)
    as (Hsnap & _ & _ & _ & Hts & _).
  - reflexivity.
  - vm_compute. discriminate.
  - split; [exact Hsnap|exact Hts].
Defined.

(** Five events of different kinds: never more than one timeout, and
    at most five scans. *)
Lemma one_slot_one_scan_per_event_witness :
  let changes : gmap string StorageChange :=
    {[ STORAGE_KEY_ENABLED := {| newValue := boolean true |} ]} in
  let timeline :=
    [(0, ev_rescan); (100, ev_storage changes "sync"); (900, ev_popstate);
     (1500, ev_poll (js "https://jobs.example/2")); (2000, ev_rescan)]%nat in
  (length (scans (@run BasicLatin posting_page timeline 4000 loaded)) <= 5)%nat.
Proof.
  intros changes timeline.
  apply (@one_slot_one_scan_per_event BasicLatin posting_page timeline 4000
           loaded I).
Defined.

(** The posting was scanned and the banner shown; detection is switched
    off and on again: the banner stays hidden. *)
Lemma switching_on_does_not_force_a_scan_witness :
  let shown := @performScan BasicLatin posting loaded in
  let switch (b : bool) : gmap string StorageChange :=
    {[ STORAGE_KEY_ENABLED := {| newValue := boolean b |} ]} in
  let off := onStorageChange (switch false) "sync" shown in
  let on := onStorageChange (switch true) "sync" off in
  banner_visible shown = true /\
  banner (@advance BasicLatin posting_page 500 on) = banner off /\
  banner_visible off = false.
Proof.
  intros shown switch off on.
  split; [vm_compute; reflexivity|]. split; [|vm_compute; reflexivity].
  apply (@switching_on_does_not_force_a_scan BasicLatin posting_page
           (switch true) "sync"%string off).
  - vm_compute. exact I.
  - left. reflexivity.
  - left. exists {| newValue := boolean true |}.
    split; [vm_compute; reflexivity|discriminate].
  - vm_compute. reflexivity.
Defined.

(** The keyword revision on ["casino sponsorship"]. *)
Lemma keyword_scan_exact_witness :
  NoDup (@Keywords.scanForRestrictions BasicLatin (js "casino sponsorship")) /\
  js "no sponsorship"
    ∈ @Keywords.scanForRestrictions BasicLatin (js "casino sponsorship").
Proof.
  destruct (@keyword_scan_exact BasicLatin (js "casino sponsorship"))
    as (Hnd & _ & Hiff); [discriminate|].
  split; [exact Hnd|]. apply Hiff. split.
  - apply list_elem_of_In. vm_compute. left. reflexivity.
  - exists (js "casi"), []. vm_compute. reflexivity.
Defined.

(** Upper case and lower case give the same phrases. *)
Lemma scan_ignores_letter_case_witness :
  @scanForRestrictions BasicLatin (js "NO Visa SPONSORSHIP")
  = @scanForRestrictions BasicLatin (js "no visa sponsorship").
Proof.
  apply (@scan_ignores_letter_case BasicLatin BasicLatin_laws).
  repeat (apply List.Forall2_cons; [reflexivity|]). apply List.Forall2_nil.
Defined.

(** On the sample page the phrase is wrapped as the page spells it. *)
Lemma highlight_target_spec_witness :
  @highlight_target BasicLatin sample_body [js "no sponsorship"]
    = Some (js "No sponsorship") /\
  exists content,
    occurs_in (js "No sponsorship") content /\
    occurs_in (js "no sponsorship") (@toLowerCase BasicLatin content).
Proof.
  assert (Ht : @highlight_target BasicLatin sample_body [js "no sponsorship"]
               = Some (js "No sponsorship")) by (vm_compute; reflexivity).
  split; [exact Ht|].
  destruct (proj1 (@highlight_target_spec BasicLatin BasicLatin_laws
                     sample_body (js "no sponsorship") [])
              (js "No sponsorship") Ht)
    as (child & parent & content & _ & _ & _ & Hocc & Hkey & _).
  exists content. split; [exact Hocc|exact Hkey].
Defined.

